(** * Recommendation core of the movie recommender (src/app.py)

    A shallow embedding of [normalize_text], [smart_match_movie] and
    [robust_recommend], and of the page around them: the session state,
    [fetch_poster], the genre list and the two result views.

    Modelling conventions.
    - Text is [string]; a character is read as the code point of the same
      number (0..255).  [is_space], [lower_char] follow Python's
      [str.isspace] / [str.lower] on that range.
    - Similarity scores and fuzzy scores are rationals ([Q]): every finite
      float is one, comparisons are exact, and [np.mean], [* 0.8],
      [* 100] and [round(_, 2)] are taken without rounding error.
    - [fuzz.WRatio], [fuzz.partial_ratio] (rapidfuzz) and the pairwise
      cosine (scikit-learn) are external: they are parameters.
    - A row of the [movies] frame carries its index label (a natural
      number); its position is its place in the list.  Line 150 yields a
      label, lines 152-162 address rows and scores by position.
    - The process-wide objects [movies], [vectors], [title_list] live in a
      [store] threaded through every call; an exception is a [Raise]
      outcome; calls into the external scorers are recorded in a log. *)

From Stdlib Require Import String Ascii List Bool Arith ZArith Lia.
From Stdlib Require Import QArith Qround Qminmax Lqa.
From Stdlib Require Import Sorting.Sorted Sorting.Permutation.
From Stdlib Require OrderedTypeEx.
Import ListNotations.

Local Open Scope string_scope.

(* ------------------------------------------------------------------ *)
(** ** Text: [str.lower], [str.strip], [re.sub] *)

Module Text.

(** Python value handed to [normalize_text]: the annotation says [str],
    the body coerces with [str(text)], so [None] is accepted too. *)
Inductive pyval : Type :=
| PyNone
| PyStr (s : string).

(** [str(text)] *)
Definition str (v : pyval) : string :=
  match v with
  | PyNone => "None"
  | PyStr s => s
  end.

Definition code (c : ascii) : nat := nat_of_ascii c.

Definition between (lo hi n : nat) : bool := ((lo <=? n) && (n <=? hi))%nat.

(** [\s] of a str pattern, and the characters [str.strip()] removes:
    TAB..CR, FS..US, SPACE, NEL, NBSP. *)
Definition is_space (c : ascii) : bool :=
  let n := code c in
  between 9 13 n || between 28 32 n || (n =? 133)%nat || (n =? 160)%nat.

(** [[a-z]] *)
Definition is_az (c : ascii) : bool := between 97 122 (code c).

(** [str.lower] on one character: A-Z and the Latin-1 capitals
    (U+00C0..U+00DE but the multiplication sign) move up by 32. *)
Definition lower_char (c : ascii) : ascii :=
  let n := code c in
  if between 65 90 n || (between 192 222 n && negb (n =? 215)%nat)
  then ascii_of_nat (n + 32)
  else c.

Fixpoint lower (s : string) : string :=
  match s with
  | EmptyString => EmptyString
  | String c s' => String (lower_char c) (lower s')
  end.

Fixpoint lstrip (s : string) : string :=
  match s with
  | EmptyString => EmptyString
  | String c s' => if is_space c then lstrip s' else s
  end.

Fixpoint rstrip (s : string) : string :=
  match s with
  | EmptyString => EmptyString
  | String c s' =>
      match rstrip s' with
      | EmptyString => if is_space c then EmptyString else String c EmptyString
      | r => String c r
      end
  end.

(** [str.strip()] *)
Definition strip (s : string) : string := rstrip (lstrip s).

(** [re.sub(r"[^a-z\s]", " ", text)] *)
Fixpoint sub_non_letters (s : string) : string :=
  match s with
  | EmptyString => EmptyString
  | String c s' =>
      String (if is_az c || is_space c then c else " "%char) (sub_non_letters s')
  end.

Definition starts_with_space (s : string) : bool :=
  match s with
  | EmptyString => false
  | String c _ => is_space c
  end.

(** [re.sub(r"\s+", " ", text)]: every maximal run of whitespace becomes
    one space (the run is replaced when its last character is reached). *)
Fixpoint sub_spaces (s : string) : string :=
  match s with
  | EmptyString => EmptyString
  | String c s' =>
      if is_space c
      then if starts_with_space s' then sub_spaces s'
           else String " "%char (sub_spaces s')
      else String c (sub_spaces s')
  end.

(** [normalize_text], lines 105-108. *)
Definition normalize_text (text : pyval) : string :=
  let text := lower (str text) in
  let text := sub_non_letters text in
  strip (sub_spaces text).

Definition is_empty (s : string) : bool :=
  match s with
  | EmptyString => true
  | _ => false
  end.

(** A character that survives both substitutions: a letter or a space. *)
Definition plain (c : ascii) : bool := is_az c || Ascii.eqb c " ".

Fixpoint all_chars (p : ascii -> bool) (s : string) : bool :=
  match s with
  | EmptyString => true
  | String c s' => p c && all_chars p s'
  end.

End Text.

Import Text.

(* ------------------------------------------------------------------ *)
(** ** Numbers: [np.mean], [max], [round(_, 2)], [np.argsort] *)

Module Num.

Local Open Scope Q_scope.

Definition Qsum (l : list Q) : Q := fold_right Qplus 0 l.

(** [np.mean] *)
Definition mean (l : list Q) : Q := Qsum l / inject_Z (Z.of_nat (length l)).

(** Round to the nearest integer, ties to the even one ([np.rint]). *)
Definition rint (x : Q) : Z :=
  let f := Qfloor x in
  match Qcompare (x - inject_Z f) (1 # 2) with
  | Lt => f
  | Gt => (f + 1)%Z
  | Eq => if Z.even f then f else (f + 1)%Z
  end.

(** [round(x, 2)] on a NumPy float: scale by 100, [rint], scale back. *)
Definition round2 (x : Q) : Q := Qred (inject_Z (rint (x * 100)) / 100).

(** [scores[i]] for an index known to be in range. *)
Definition at_ (scores : list Q) (i : nat) : Q := nth i scores 0.

(** [scores[idx] = v]; the caller only writes inside the array. *)
Fixpoint setitem (scores : list Q) (idx : nat) (v : Q) : list Q :=
  match scores, idx with
  | [], _ => []
  | _ :: rest, O => v :: rest
  | s :: rest, S k => s :: setitem rest k v
  end.

(** One step of a stable insertion sort of indices by ascending key. *)
Fixpoint insert_by (key : nat -> Q) (i : nat) (sorted : list nat) : list nat :=
  match sorted with
  | [] => [i]
  | j :: rest =>
      if Qle_bool (key i) (key j) then i :: sorted
      else j :: insert_by key i rest
  end.

(** [np.argsort(scores)]: the indices [0 .. n-1] by ascending score.
    NumPy leaves the order of equal scores open; here equal scores keep
    their index order. *)
Definition argsort (scores : list Q) : list nat :=
  fold_right (insert_by (at_ scores)) [] (seq 0 (length scores)).

(** [np.argsort(scores)[::-1][:30]] *)
Definition top_indices (scores : list Q) : list nat :=
  firstn 30 (rev (argsort scores)).

(** [scores[top_indices]] *)
Definition take (scores : list Q) (idxs : list nat) : list Q :=
  map (at_ scores) idxs.

(** [max(mean_score * 0.8, 0.12)]; [Qmax a b] is [b] when [a < b] and
    [a] otherwise, as Python's [max]. *)
Definition threshold_of (mean_score : Q) : Q := Qmax (mean_score * (4 # 5)) (3 # 25).

(** Orders on indices induced by their scores. *)
Definition asc (key : nat -> Q) (i j : nat) : Prop := key i <= key j.
Definition desc (key : nat -> Q) (i j : nat) : Prop := key j <= key i.

End Num.

Import Num.

(* ------------------------------------------------------------------ *)
(** ** The program *)

Module App.

Section Core.

(** A row of the similarity vector set, and the cosine of two rows. *)
Variable V : Type.
Variable cosine : V -> V -> Q.

(** [fuzz.WRatio] and [fuzz.partial_ratio]: scores on the 0..100 scale. *)
Variable WRatio : string -> string -> Q.
Variable partial_ratio : string -> string -> Q.

(** A row of the [movies] frame: its index label (what [.index] gives for
    it, here a natural number; the position of the row is its place in the
    list), its title and the [clean_title] column of line 96. *)
Record movie : Type := { label : nat; title : string; clean_title : string }.

(** The process-wide objects of lines 95-97. *)
Record store : Type := {
  movies : list movie;
  vectors : list V;
  title_list : list string
}.

(** Lines 95-97 on a frame given by its rows (index label, title): the
    artifacts as loaded, the [clean_title] column and [title_list] derived
    from the titles. *)
Definition load (frame : list (nat * string)) (vs : list V) : store :=
  let ms := map (fun r => {| label := fst r; title := snd r;
                             clean_title := strip (lower (snd r)) |}) frame in
  {| movies := ms; vectors := vs; title_list := map clean_title ms |}.

(** The same on a frame with the default index: the label of a row is its
    position. *)
Definition startup (titles : list string) (vs : list V) : store :=
  load (combine (seq 0 (length titles)) titles) vs.

(** The index labels of a frame are the positions of its rows. *)
Definition positional (ms : list movie) : Prop :=
  forall pos m, nth_error ms pos = Some m -> label m = pos.

Inductive exn : Type := IndexError.

Inductive outcome (A : Type) : Type :=
| Ok (a : A)
| Raise (e : exn).
Arguments Ok {A} a.
Arguments Raise {A} e.

(** Calls that leave the module: one per [process.extractOne] pass, one
    per [cosine_similarity]. *)
Inductive event : Type :=
| ScoreWRatio
| ScorePartialRatio
| Cosine (idx : nat).

Record run (A : Type) : Type := {
  value : outcome A;
  final : store;
  calls : list event
}.
Arguments value {A} r.
Arguments final {A} r.
Arguments calls {A} r.

Definition M (A : Type) : Type := store -> run A.

Definition ret {A} (a : A) : M A :=
  fun st => {| value := Ok a; final := st; calls := [] |}.

Definition bind {A B} (m : M A) (k : A -> M B) : M B :=
  fun st =>
    let r := m st in
    match value r with
    | Raise e => {| value := Raise e; final := final r; calls := calls r |}
    | Ok a =>
        let r' := k a (final r) in
        {| value := value r'; final := final r'; calls := (calls r ++ calls r')%list |}
    end.

Definition gets {A} (field : store -> A) : M A :=
  fun st => {| value := Ok (field st); final := st; calls := [] |}.

Definition emit (e : event) : M unit :=
  fun st => {| value := Ok tt; final := st; calls := [e] |}.

Definition lift {A} (o : outcome A) : M A :=
  fun st => {| value := o; final := st; calls := [] |}.

Notation "x <- c ;; k" := (bind c (fun x => k))
  (at level 61, c at next level, right associativity).
Notation "c ;;; k" := (bind c (fun _ => k))
  (at level 61, right associativity).

(** *** [process.extractOne] *)

(** What [process.extractOne] returns: [(choice, score, index)]. *)
Record hit : Type := { choice : string; score : Q; index : nat }.

(** The scan of [process.extractOne] (rapidfuzz, outside this
    repository), after its documentation: the choices are scored in list
    order and a later choice replaces the best so far only with a strictly
    greater score, so the first of the best wins. *)
Fixpoint scan (scorer : string -> string -> Q) (query : string)
         (choices : list string) (k : nat) (best : option hit) : option hit :=
  match choices with
  | [] => best
  | c :: rest =>
      let sc := scorer query c in
      let best' :=
        match best with
        | None => Some {| choice := c; score := sc; index := k |}
        | Some b =>
            if Qle_bool sc (score b) then best
            else Some {| choice := c; score := sc; index := k |}
        end in
      scan scorer query rest (S k) best'
  end.

Definition extractOne (scorer : string -> string -> Q) (query : string)
           (choices : list string) : option hit :=
  scan scorer query choices 0 None.

(** [match and match[1] >= cutoff] *)
Definition accepts (m : option hit) (cutoff : Q) : bool :=
  match m with
  | None => false
  | Some h => Qle_bool cutoff (score h)
  end.

(** [match[0]] once [accepts] holds. *)
Definition choice_of (m : option hit) : option string :=
  match m with
  | None => None
  | Some h => Some (choice h)
  end.

(** [b] is the first of the best among the choices [seen]: the choices
    before it score strictly less, those after it no more. *)
Definition best_at (scorer : string -> string -> Q) (query : string)
           (seen : list string) (b : hit) : Prop :=
  exists before after,
    seen = (before ++ choice b :: after)%list /\
    length before = index b /\
    score b = scorer query (choice b) /\
    Forall (fun c => scorer query c < score b)%Q before /\
    Forall (fun c => scorer query c <= score b)%Q after.

(** *** [smart_match_movie], lines 125-136 *)
Definition smart_match_movie (user_input : string) : M (option string) :=
  let user_input := strip (lower user_input) in
  titles <- gets title_list ;;
  emit ScoreWRatio ;;;
  let match_ := extractOne WRatio user_input titles in
  if accepts match_ 80 then ret (choice_of match_)
  else
    emit ScorePartialRatio ;;;
    let match_ := extractOne partial_ratio user_input titles in
    if accepts match_ 85 then ret (choice_of match_)
    else ret None.

(** *** [robust_recommend], lines 140-166 *)

Fixpoint string_in (s : string) (l : list string) : bool :=
  match l with
  | [] => false
  | t :: rest => String.eqb s t || string_in s rest
  end.

(** [not matched]: [None] and the empty string are both falsy. *)
Definition falsy (matched : option string) : bool :=
  match matched with
  | None => true
  | Some t => is_empty t
  end.

(** The index of [movies[movies["clean_title"] == matched]]: the labels of
    the selected rows, in frame order. *)
Fixpoint rows (ms : list movie) (matched : string) : list nat :=
  match ms with
  | [] => []
  | m :: rest =>
      if String.eqb (clean_title m) matched
      then label m :: rows rest matched
      else rows rest matched
  end.

(** [.index[0]]: the label of the first selected row. *)
Definition first_label (labels : list nat) : outcome nat :=
  match labels with
  | [] => Raise IndexError
  | i :: _ => Ok i
  end.

(** [vectors[idx]], [movies.iloc[i]] *)
Definition getitem {A} (l : list A) (i : nat) : outcome A :=
  match nth_error l i with
  | Some a => Ok a
  | None => Raise IndexError
  end.

(** [cosine_similarity(x, vectors)[0]] *)
Definition cosine_similarity (x : V) (vs : list V) : list Q := map (cosine x) vs.

(** The loop of lines 159-164, entered with the results collected so far. *)
Fixpoint walk (ms : list movie) (scores : list Q) (threshold : Q) (top_n : Z)
         (pool : list nat) (results : list (string * Q))
  : outcome (list (string * Q)) :=
  match pool with
  | [] => Ok results
  | i :: rest =>
      let appended :=
        if Qle_bool threshold (at_ scores i)
        then match getitem ms i with
             | Ok m => Ok (results ++ [(title m, round2 (at_ scores i * 100))])%list
             | Raise e => Raise e
             end
        else Ok results in
      match appended with
      | Raise e => Raise e
      | Ok results' =>
          if (Z.of_nat (length results') =? top_n)%Z then Ok results'
          else walk ms scores threshold top_n rest results'
      end
  end.

(** Lines 152-153: the similarity row with the own score forced to zero. *)
Definition own_zeroed (x : V) (vs : list V) (idx : nat) : list Q :=
  setitem (cosine_similarity x vs) idx 0.

(** Lines 155-157. *)
Definition threshold (scores : list Q) : Q :=
  threshold_of (mean (take scores (top_indices scores))).

(** Line 145: the exact-title test, else the fuzzy resolver. *)
Definition resolve (movie_name : string) : M (option string) :=
  titles <- gets title_list ;;
  if string_in movie_name titles then ret (Some movie_name)
  else smart_match_movie movie_name.

(** Lines 141-148: the title the ranking starts from, or [None] on the
    two paths that return the empty list. *)
Definition matched_title (movie_name : pyval) : M (option string) :=
  let movie_name := normalize_text movie_name in
  if is_empty movie_name then ret None
  else
    matched <- resolve movie_name ;;
    if falsy matched then ret None else ret matched.

(** Line 150: the index label of the first row with the matched clean
    title.  Lines 152-162 use it as a position. *)
Definition locate (matched : string) : M nat :=
  ms <- gets movies ;;
  lift (first_label (rows ms matched)).

(** Lines 152-166. *)
Definition rank (idx : nat) (top_n : Z) : M (list (string * Q)) :=
  vs <- gets vectors ;;
  x <- lift (getitem vs idx) ;;
  emit (Cosine idx) ;;;
  let scores := own_zeroed x vs idx in
  ms <- gets movies ;;
  lift (walk ms scores (threshold scores) top_n (top_indices scores) []).

Definition robust_recommend (movie_name : pyval) (top_n : Z)
  : M (list (string * Q)) :=
  matched <- matched_title movie_name ;;
  match matched with
  | None => ret []
  | Some matched =>
      idx <- locate matched ;;
      rank idx top_n
  end.

(** *** The positions the loop appends

    [accepted] is the loop of lines 159-164 with the appended position
    kept instead of the rendered pair; [count] is [len(results)]. *)
Fixpoint accepted (scores : list Q) (threshold : Q) (top_n : Z)
         (pool : list nat) (count : nat) : list nat :=
  match pool with
  | [] => []
  | i :: rest =>
      if Qle_bool threshold (at_ scores i)
      then i :: (if (Z.of_nat (S count) =? top_n)%Z then []
                 else accepted scores threshold top_n rest (S count))
      else if (Z.of_nat count =? top_n)%Z then []
           else accepted scores threshold top_n rest count
  end.

(** [(movies.iloc[i].title, round(scores[i] * 100, 2))] *)
Definition render (ms : list movie) (scores : list Q) (i : nat) : string * Q :=
  (match nth_error ms i with Some m => title m | None => EmptyString end,
   round2 (at_ scores i * 100)).

End Core.

Arguments Ok {A} a.
Arguments Raise {A} e.
Arguments value {V A} r.
Arguments final {V A} r.
Arguments calls {V A} r.
Arguments title_list {V} s.
Arguments movies {V} s.
Arguments vectors {V} s.

Arguments startup {V} titles vs.
Arguments load {V} frame vs.
Arguments own_zeroed {V} cosine x vs idx.
Arguments ret {V A} a _.
Arguments bind {V A B} m k _.
Arguments gets {V A} field _.
Arguments emit {V} e _.
Arguments lift {V A} o _.
Arguments cosine_similarity {V} cosine x vs.

End App.

Import App.

(** The store after a sequence of calls [(movie_name, top_n)]. *)
Definition after_calls {V} (cosine : V -> V -> Q)
           (WRatio partial_ratio : string -> string -> Q)
           (history : list (pyval * Z)) (st : store V) : store V :=
  fold_left
    (fun st call =>
       final (robust_recommend V cosine WRatio partial_ratio (fst call) (snd call) st))
    history st.

(* ------------------------------------------------------------------ *)
(** ** A small catalog to run the program on *)

Module Demo.

Local Open Scope Q_scope.

(** Rows are named by their position; the similarity of two rows is read
    off a symmetric table. *)
Definition table : list (list Q) :=
  [ [1;       9 # 10;  17 # 20];
    [9 # 10;  1;       1 # 2];
    [17 # 20; 1 # 2;   1] ].

Definition cosine (a b : nat) : Q := nth b (nth a table []) 0.

Fixpoint common_prefix (a b : string) : nat :=
  match a, b with
  | String x a', String y b' =>
      if Ascii.eqb x y then S (common_prefix a' b') else O
  | _, _ => O
  end.

(** A stand-in scorer on the 0..100 scale: the share of the longer text
    covered by the common prefix. *)
Definition prefix_ratio (a b : string) : Q :=
  match Nat.max (String.length a) (String.length b) with
  | O => 0
  | S k => inject_Z (Z.of_nat (100 * common_prefix a b)) / inject_Z (Z.of_nat (S k))
  end.

(** A scorer that finds nothing. *)
Definition no_ratio (a b : string) : Q := 0.

Definition catalog : store nat :=
  startup ["Inception"; "Batman"; "Heat"] [0; 1; 2]%nat.

(** A catalog with an entry whose title is blank. *)
Definition blank_catalog : store nat :=
  startup ["   "; "Batman"] [0; 1]%nat.

Definition recommend := robust_recommend nat cosine prefix_ratio no_ratio.

End Demo.

(* ------------------------------------------------------------------ *)
(** ** Small frames with index labels of their own *)

Module LabelDemo.

Local Open Scope string_scope.

(** Three rows whose labels are a permutation of their positions. *)
Definition shuffled_frame : list (nat * string) :=
  [(2, "Heat"); (0, "Up"); (1, "Jaws")]%nat.

Definition shuffled : store nat := load shuffled_frame [0; 1; 2]%nat.

(** Labels that are no positions, and a clean title held by two rows. *)
Definition doubled_frame : list (nat * string) :=
  [(7, "Heat"); (4, "Up"); (9, "  UP ")]%nat.

Definition doubled : store nat := load doubled_frame [0; 1; 2]%nat.

(** The rows of the small catalog with the default index written out. *)
Definition default_frame : list (nat * string) :=
  [(0, "Inception"); (1, "Batman"); (2, "Heat")]%nat.

(** A catalog with a movie titled "None". *)
Definition none_catalog : store nat :=
  startup ["None"; "Batman"; "Heat"] [0; 1; 2]%nat.

End LabelDemo.

(* ------------------------------------------------------------------ *)
(** ** The page: session state, poster lookup, the two result views

    One run of the script below line 190 on given widget values.  What
    Streamlit, requests and pandas do is taken from their documentation:
    - [st.session_state] keeps its keys from one run to the next;
      [st.rerun()] ends the run by raising; an uncaught exception ends the
      run and keeps the assignments made so far;
    - [st.cache_data] keeps the value a call returned, by argument, and
      returns it on later calls without running the body; a call that
      raises stores nothing;
    - [requests.get] raises a [RequestException] or returns a response with
      a status and a body; [raise_for_status] raises for a status from 400
      to 599; [res.json()] raises a [ValueError] on a body that is not JSON;
    - [DataFrame.sample(n)] raises [ValueError] for [n] above the number of
      rows and else returns [n] rows at positions drawn without
      replacement; the draw is the parameter [choose]. *)

Module Page.

Local Open Scope string_scope.

(** [st.session_state] as kept between runs: a key is there or not. *)
Record keys : Type := { search_key : option string; genre_key : option string }.

Definition no_keys : keys := {| search_key := None; genre_key := None |}.

(** [st.session_state] once lines 22-26 have run. *)
Record session : Type := { search_input : string; selected_genre : string }.

(** Lines 22-26. *)
Definition defaults (k : keys) : session :=
  {| search_input := match search_key k with Some s => s | None => "" end;
     selected_genre := match genre_key k with Some g => g | None => "All Genres" end |}.

Definition stored (s : session) : keys :=
  {| search_key := Some (search_input s); genre_key := Some (selected_genre s) |}.

(** Exceptions that leave the script. *)
Inductive failure : Type :=
| ValueError
| AttributeError
| RerunException
| FromRecommend (e : exn).

Inductive attempt (A : Type) : Type :=
| Done (a : A)
| Fails (e : failure).
Arguments Done {A} a.
Arguments Fails {A} e.

#[local] Set Warnings "-register-all".

(** A parsed JSON value; [JNull] is Python's [None].  The fields of an
    object are the items of the dict, one per key. *)
Inductive json : Type :=
| JNull
| JBool (b : bool)
| JNumber (x : Q)
| JString (s : string)
| JArray (items : list json)
| JObject (fields : list (string * json)).

(** What [requests.get] gives: an exception, or a status with the body as
    [res.json()] reads it ([None] where that raises). *)
Inductive response : Type :=
| NoConnection
| Reply (status : nat) (body : option json).

(** [data.get(key)] *)
Fixpoint dict_get (fields : list (string * json)) (key : string) : json :=
  match fields with
  | [] => JNull
  | (k, v) :: rest => if String.eqb k key then v else dict_get rest key
  end.

(** [poster in [None, "N/A"]] *)
Definition none_or_na (poster : json) : bool :=
  match poster with
  | JNull => true
  | JString s => String.eqb s "N/A"
  | _ => false
  end.

(** Truth value of a parsed JSON value ([if poster:]). *)
Definition truthy (v : json) : bool :=
  match v with
  | JNull => false
  | JBool b => b
  | JNumber x => negb (Qeq_bool x 0)
  | JString s => negb (is_empty s)
  | JArray items => match items with [] => false | _ => true end
  | JObject fields => match fields with [] => false | _ => true end
  end.

(** A row of the frame as the genre view reads it, with its index label. *)
Record entry : Type := { e_label : nat; e_title : string; e_genres : list string }.

(** Insertion into a list in ascending order without repetition. *)
Fixpoint insert_sorted (g : string) (l : list string) : list string :=
  match l with
  | [] => [g]
  | h :: rest =>
      match String.compare g h with
      | Lt => g :: l
      | Eq => l
      | Gt => h :: insert_sorted g rest
      end
  end.

(** [sorted({g for g in l})] *)
Definition sorted_set (l : list string) : list string :=
  fold_right insert_sorted [] l.

(** Line 204. *)
Definition all_genres (frame : list entry) : list string :=
  "All Genres" :: sorted_set (flat_map e_genres frame).

(** [l.index(x)] *)
Fixpoint index_from (k : nat) (x : string) (l : list string) : attempt nat :=
  match l with
  | [] => Fails ValueError
  | h :: rest => if String.eqb h x then Done k else index_from (S k) x rest
  end.

Definition index_of (x : string) (l : list string) : attempt nat :=
  index_from 0 x l.

(** [selected_genre in x] *)
Definition has_genre (g : string) (e : entry) : bool :=
  existsb (String.eqb g) (e_genres e).

(** The rows at the drawn positions. *)
Definition rows_at {A} (rows : list A) (positions : list nat) : list A :=
  flat_map (fun p => match nth_error rows p with Some r => [r] | None => [] end)
           positions.

(** [rows.sample(n)] with the draw [choose n (len(rows))]. *)
Definition sample {A} (choose : nat -> nat -> list nat) (n : nat) (rows : list A)
  : attempt (list A) :=
  if (length rows <? n)%nat then Fails ValueError
  else Done (rows_at rows (choose n (length rows))).

(** Lines 244-248. *)
Definition genre_sample (choose : nat -> nat -> list nat) (selected : string)
           (frame : list entry) : attempt (list entry) :=
  if String.eqb selected "All Genres" then sample choose 10 frame
  else
    let hits := filter (has_genre selected) frame in
    sample choose (Nat.min 10 (length hits)) hits.

(** What a card shows under the title: a percentage or a dash. *)
Inductive badge : Type :=
| Percent (score : Q)
| Dash.

(** What the page shows. *)
Inductive item : Type :=
| ErrorBox (message : string)
| Card (column : nat) (card_title : string) (poster : json) (mark : badge).

(** The widgets of one run: the text in the box, the genre picked, the
    three buttons. *)
Record widgets : Type := {
  typed : string;
  chosen : string;
  search_btn : bool;
  genre_btn : bool;
  reset_btn : bool
}.

(** State of a run. *)
Record pstate : Type := {
  now : session;
  posters : list (string * json);
  shown : list item
}.

Definition P (A : Type) : Type := pstate -> attempt A * pstate.

Definition pure {A} (a : A) : P A := fun p => (Done a, p).

Definition fail {A} (e : failure) : P A := fun p => (Fails e, p).

Definition andthen {A B} (m : P A) (k : A -> P B) : P B :=
  fun p =>
    match m p with
    | (Done a, p') => k a p'
    | (Fails e, p') => (Fails e, p')
    end.

Definition of_attempt {A} (a : attempt A) : P A := fun p => (a, p).

Definition get_session : P session := fun p => (Done (now p), p).

Definition set_session (s : session) : P unit :=
  fun p => (Done tt, {| now := s; posters := posters p; shown := shown p |}).

Definition show (i : item) : P unit :=
  fun p => (Done tt, {| now := now p; posters := posters p;
                        shown := (shown p ++ [i])%list |}).

Definition when (b : bool) (m : P unit) : P unit := if b then m else pure tt.

Notation "x <- c ;; k" := (andthen c (fun x => k))
  (at level 61, c at next level, right associativity).
Notation "c ;;; k" := (andthen c (fun _ => k))
  (at level 61, right associativity).

(** The value kept for a title by [st.cache_data]. *)
Fixpoint kept (c : list (string * json)) (title : string) : option json :=
  match c with
  | [] => None
  | (t, v) :: rest => if String.eqb t title then Some v else kept rest title
  end.

Section Script.

Variable V : Type.
Variable cosine : V -> V -> Q.
Variable WRatio partial_ratio : string -> string -> Q.

(** [OMDB_API_KEY], the network and the draw of [sample]. *)
Variable api_key : string.
Variable requests_get : string -> response.
Variable choose : nat -> nat -> list nat.

(** The frame and the vector set as loaded. *)
Variable frame : list entry.
Variable vs : list V.

Definition loaded : store V :=
  load (map (fun e => (e_label e, e_title e)) frame) vs.

(** Line 114. *)
Definition url (title : string) : string :=
  "http://www.omdbapi.com/?t=" ++ title ++ "&apikey=" ++ api_key.

(** The body of [fetch_poster], lines 113-121. *)
Definition fetch_poster_body (title : string) : attempt json :=
  match requests_get (url title) with
  | NoConnection => Done JNull
  | Reply status body =>
      if ((400 <=? status) && (status <? 600))%nat then Done JNull
      else
        match body with
        | None => Done JNull
        | Some (JObject fields) =>
            let poster := dict_get fields "Poster" in
            Done (if none_or_na poster then JNull else poster)
        | Some _ => Fails AttributeError
        end
  end.

(** [fetch_poster] under [st.cache_data], line 111. *)
Definition fetch_poster (title : string) : P json :=
  fun p =>
    match kept (posters p) title with
    | Some v => (Done v, p)
    | None =>
        match fetch_poster_body title with
        | Done v => (Done v, {| now := now p; posters := (title, v) :: posters p;
                               shown := shown p |})
        | Fails e => (Fails e, p)
        end
    end.

(** The loops of lines 232-236 and 251-255, from position [i] on. *)
Fixpoint cards (i : nat) (items : list (string * badge)) : P unit :=
  match items with
  | [] => pure tt
  | (t, mark) :: rest =>
      poster <- fetch_poster t ;;
      when (truthy poster) (show (Card (i mod 5) t poster mark)) ;;;
      cards (S i) rest
  end.

(** [robust_recommend(search_input)] on the loaded artifacts. *)
Definition recommend (text : string) : P (list (string * Q)) :=
  match value (robust_recommend V cosine WRatio partial_ratio (PyStr text) 10 loaded) with
  | Ok recs => pure recs
  | Raise e => fail (FromRecommend e)
  end.

(** Lines 216-219. *)
Definition reset_block : P unit :=
  set_session {| search_input := ""; selected_genre := "All Genres" |} ;;;
  fail RerunException.

(** Lines 223-236. *)
Definition search_block (w : widgets) : P unit :=
  set_session {| search_input := typed w; selected_genre := "All Genres" |} ;;;
  recs <- recommend (typed w) ;;
  match recs with
  | [] => show (ErrorBox "No strong recommendations found.")
  | _ => cards 0 (map (fun r => (fst r, Percent (snd r))) recs)
  end.

(** Lines 240-255. *)
Definition genre_block (w : widgets) : P unit :=
  set_session {| search_input := ""; selected_genre := chosen w |} ;;;
  rows <- of_attempt (genre_sample choose (chosen w) frame) ;;
  cards 0 (map (fun e => (e_title e, Dash)) rows).

(** Lines 191-255 on the widget values [w]. *)
Definition script (w : widgets) : P unit :=
  s <- get_session ;;
  of_attempt (index_of (selected_genre s) (all_genres frame)) ;;;
  when (reset_btn w) reset_block ;;;
  when (search_btn w) (search_block w) ;;;
  when (genre_btn w) (genre_block w).

(** One run: lines 22-26, then the script; the page starts empty. *)
Definition run_script (w : widgets) (k : keys) (c : list (string * json))
  : attempt unit * pstate :=
  script w {| now := defaults k; posters := c; shown := [] |}.

End Script.

(** What one run meets: the network and the draw of that moment, and the
    widget values. *)
Record world : Type := {
  net : string -> response;
  draw : nat -> nat -> list nat;
  input : widgets
}.

Section Runs.

Variable V : Type.
Variable cosine : V -> V -> Q.
Variable WRatio partial_ratio : string -> string -> Q.
Variable api_key : string.
Variable frame : list entry.
Variable vs : list V.

(** The page of a run started from the keys and the kept posters. *)
Definition page (x : world) (kc : keys * list (string * json)) : pstate :=
  snd (run_script V cosine WRatio partial_ratio api_key (net x) (draw x)
                  frame vs (input x) (fst kc) (snd kc)).

(** The keys and the kept posters after a run. *)
Definition next (kc : keys * list (string * json)) (x : world)
  : keys * list (string * json) :=
  (stored (now (page x kc)), posters (page x kc)).

(** The keys and the kept posters after a sequence of runs of a fresh
    session. *)
Definition after_runs (xs : list world) : keys * list (string * json) :=
  fold_left next xs (no_keys, []).

End Runs.

End Page.

(* ------------------------------------------------------------------ *)
(** ** Vocabulary for the properties of the page *)

Module PageShape.

Import Page.

Local Open Scope string_scope.

(** The search text is empty or the genre is "All Genres". *)
Definition steady (s : session) : Prop :=
  search_input s = "" \/ selected_genre s = "All Genres".

(** A card has a poster that counts as true and is not "N/A". *)
Definition presentable (it : item) : Prop :=
  match it with
  | ErrorBox _ => True
  | Card _ _ poster _ => truthy poster = true /\ poster <> JString "N/A"
  end.

(** No kept poster is "N/A". *)
Definition sound (c : list (string * json)) : Prop :=
  forall t v, kept c t = Some v -> v <> JString "N/A".

(** From [p] to [p']: kept posters stay as they are, a sound cache stays
    sound, and presentable cards stay presentable. *)
Definition grows (p p' : pstate) : Prop :=
  (forall t v, kept (posters p) t = Some v -> kept (posters p') t = Some v) /\
  (sound (posters p) -> sound (posters p')) /\
  (sound (posters p) -> Forall presentable (shown p) -> Forall presentable (shown p')).

(** The cards for the items from position [i] on, by the kept posters. *)
Fixpoint cards_of (c : list (string * json)) (i : nat)
         (items : list (string * badge)) : list item :=
  match items with
  | [] => []
  | (t, mark) :: rest =>
      (match kept c t with
       | Some v => if truthy v then [Card (i mod 5) t v mark] else []
       | None => []
       end ++ cards_of c (S i) rest)%list
  end.

End PageShape.

(* ------------------------------------------------------------------ *)
(** ** A small page to run the script on *)

Module PageDemo.

Import Page.

Local Open Scope string_scope.

Definition frame : list entry :=
  [ {| e_label := 0; e_title := "Inception"; e_genres := ["Action"; "Sci-Fi"] |};
    {| e_label := 1; e_title := "Batman"; e_genres := ["Action"] |};
    {| e_label := 2; e_title := "Heat"; e_genres := ["Crime"; "Action"] |} ].

Definition vs : list nat := [0; 1; 2]%nat.

Definition key : string := "k".

(** A network that knows a poster for "Batman", answers "N/A" for "Heat"
    and 404 for the rest. *)
Definition online (u : string) : response :=
  if String.eqb u (url key "Batman")
  then Reply 200 (Some (JObject [("Title", JString "Batman");
                                 ("Poster", JString "http://img/batman.jpg")]))
  else if String.eqb u (url key "Heat")
  then Reply 200 (Some (JObject [("Poster", JString "N/A")]))
  else Reply 404 None.

(** A network that is down. *)
Definition offline (u : string) : response := NoConnection.

(** A draw: the first [n] positions. *)
Definition first_rows (n m : nat) : list nat := seq 0 n.

Definition search_for (text : string) : widgets :=
  {| typed := text; chosen := "All Genres";
     search_btn := true; genre_btn := false; reset_btn := false |}.

Definition browse (genre : string) : widgets :=
  {| typed := ""; chosen := genre;
     search_btn := false; genre_btn := true; reset_btn := false |}.

Definition run (requests_get : string -> response) (w : widgets)
           (k : keys) (c : list (string * json)) : attempt unit * pstate :=
  run_script nat Demo.cosine Demo.prefix_ratio Demo.no_ratio key requests_get
             first_rows frame vs w k c.

Definition visit (requests_get : string -> response) (w : widgets) : world :=
  {| net := requests_get; draw := first_rows; input := w |}.

Definition session_after (xs : list world) : keys * list (string * json) :=
  after_runs nat Demo.cosine Demo.prefix_ratio Demo.no_ratio key frame vs xs.

End PageDemo.

(* ------------------------------------------------------------------ *)
(** ** Vocabulary for the shape of a normalized text *)

Module TextShape.

(** No whitespace character is followed by another one. *)
Fixpoint spaced (s : string) : bool :=
  match s with
  | EmptyString => true
  | String c s' => negb (is_space c && starts_with_space s') && spaced s'
  end.

(** The last character is whitespace. *)
Fixpoint ends_with_space (s : string) : bool :=
  match s with
  | EmptyString => false
  | String c EmptyString => is_space c
  | String _ s' => ends_with_space s'
  end.

End TextShape.

Import TextShape.

(* ------------------------------------------------------------------ *)
(** ** Facts about text *)

Module TextFacts.

Lemma plain_lower_char c : plain c = true -> lower_char c = c.
Proof.
  destruct c as [[] [] [] [] [] [] [] []]; vm_compute; congruence.
Qed.

Lemma space_plain c : is_space c = true -> plain c = true -> c = " "%char.
Proof.
  destruct c as [[] [] [] [] [] [] [] []]; vm_compute; congruence.
Qed.

Lemma lower_plain s : all_chars plain s = true -> lower s = s.
Proof.
  induction s as [|c s IH]; simpl; [reflexivity|].
  intros H. apply andb_true_iff in H as [Hc Hs].
  now rewrite plain_lower_char, IH.
Qed.

Lemma all_chars_lstrip p s : all_chars p s = true -> all_chars p (lstrip s) = true.
Proof.
  induction s as [|c s IH]; simpl; [reflexivity|].
  intros H. destruct (is_space c).
  - apply IH. now apply andb_true_iff in H as [_ H].
  - exact H.
Qed.

Lemma all_chars_rstrip p s : all_chars p s = true -> all_chars p (rstrip s) = true.
Proof.
  induction s as [|c s IH]; simpl; [reflexivity|].
  intros H. apply andb_true_iff in H as [Hc Hs]. specialize (IH Hs).
  destruct (rstrip s) as [|d r].
  - destruct (is_space c); simpl; [reflexivity|]. now rewrite Hc.
  - simpl in *. now rewrite Hc, IH.
Qed.

Lemma sub_non_letters_chars s :
  all_chars (fun c => is_az c || is_space c) (sub_non_letters s) = true.
Proof.
  induction s as [|c s IH]; simpl; [reflexivity|].
  rewrite IH, andb_true_r.
  destruct (is_az c || is_space c) eqn:E; [exact E | reflexivity].
Qed.

Lemma sub_spaces_plain s :
  all_chars (fun c => is_az c || is_space c) s = true ->
  all_chars plain (sub_spaces s) = true.
Proof.
  induction s as [|c s IH]; simpl; [reflexivity|].
  intros H. apply andb_true_iff in H as [Hc Hs]. specialize (IH Hs).
  destruct (is_space c) eqn:E.
  - destruct (starts_with_space s); [exact IH | simpl; exact IH].
  - simpl. rewrite IH, andb_true_r. unfold plain.
    rewrite orb_false_r in Hc. now rewrite Hc.
Qed.

(** The first character of a stripped text is not whitespace. *)
Lemma lstrip_head s : starts_with_space (lstrip s) = false.
Proof.
  induction s as [|c s IH]; simpl; [reflexivity|].
  destruct (is_space c) eqn:E; [exact IH | simpl; exact E].
Qed.

Lemma rstrip_head s : starts_with_space s = false -> starts_with_space (rstrip s) = false.
Proof.
  destruct s as [|c s]; simpl; [reflexivity|].
  intros E. destruct (rstrip s); rewrite ?E; simpl; exact E.
Qed.

Lemma lstrip_fixed s : starts_with_space s = false -> lstrip s = s.
Proof.
  destruct s as [|c s]; simpl; [reflexivity|]. now intros ->.
Qed.

Lemma rstrip_idem s : rstrip (rstrip s) = rstrip s.
Proof.
  induction s as [|c s IH]; simpl; [reflexivity|].
  destruct (rstrip s) as [|d r] eqn:E.
  - destruct (is_space c) eqn:Ec; simpl; [reflexivity | now rewrite Ec].
  - change (rstrip (String c (String d r))) with
      (match rstrip (String d r) with
       | EmptyString => if is_space c then EmptyString else String c EmptyString
       | r' => String c r'
       end).
    rewrite IH. reflexivity.
Qed.

Lemma strip_idem s : strip (strip s) = strip s.
Proof.
  unfold strip.
  rewrite (lstrip_fixed (rstrip (lstrip s))).
  - apply rstrip_idem.
  - apply rstrip_head, lstrip_head.
Qed.

(** The normalized form is made of letters and spaces only. *)
Lemma normalize_text_plain t : all_chars plain (normalize_text t) = true.
Proof.
  unfold normalize_text, strip.
  apply all_chars_rstrip, all_chars_lstrip, sub_spaces_plain, sub_non_letters_chars.
Qed.

(** [.lower().strip()], as [smart_match_movie] applies it, leaves a
    normalized text as it is. *)
Lemma lower_strip_normalized t :
  strip (lower (normalize_text t)) = normalize_text t.
Proof.
  rewrite (lower_plain _ (normalize_text_plain t)).
  unfold normalize_text. apply strip_idem.
Qed.

Lemma is_empty_true s : is_empty s = true <-> s = EmptyString.
Proof. destruct s; simpl; split; congruence. Qed.

End TextFacts.

(* ------------------------------------------------------------------ *)
(** ** Facts about numbers *)

Module NumFacts.

Local Open Scope Q_scope.

Lemma rint_bounds x : (Qfloor x <= rint x <= Qfloor x + 1)%Z.
Proof.
  unfold rint.
  destruct (Qcompare (x - inject_Z (Qfloor x)) (1 # 2)); [|lia|lia].
  destruct (Z.even (Qfloor x)); lia.
Qed.

(** Rounding to nearest-even is monotone. *)
Lemma rint_mono x y : x <= y -> (rint x <= rint y)%Z.
Proof.
  intros Hxy.
  pose proof (Qfloor_resp_le _ _ Hxy) as Hf.
  destruct (Z.eq_dec (Qfloor x) (Qfloor y)) as [E|NE].
  - unfold rint. rewrite <- E.
    destruct (Qcompare_spec (x - inject_Z (Qfloor x)) (1 # 2)) as [Hx|Hx|Hx];
      destruct (Qcompare_spec (y - inject_Z (Qfloor x)) (1 # 2)) as [Hy|Hy|Hy];
      try (destruct (Z.even (Qfloor x))); try lia; exfalso; lra.
  - pose proof (rint_bounds x). pose proof (rint_bounds y). lia.
Qed.

Lemma round2_mono x y : x <= y -> round2 x <= round2 y.
Proof.
  intros Hxy. unfold round2. rewrite !Qred_correct.
  apply Qmult_le_compat_r; [|discriminate].
  rewrite <- Zle_Qle. apply rint_mono. lra.
Qed.

Lemma setitem_length scores idx v : length (setitem scores idx v) = length scores.
Proof.
  revert idx. induction scores as [|s rest IH]; intros [|k]; simpl; auto.
Qed.

Lemma setitem_at scores idx v :
  (idx < length scores)%nat -> at_ (setitem scores idx v) idx = v.
Proof.
  unfold at_. revert idx.
  induction scores as [|s rest IH]; intros [|k]; simpl; try lia; auto.
  intros H. apply IH. lia.
Qed.

(** The threshold never drops under the floor. *)
Lemma threshold_floor m : 3 # 25 <= threshold_of m.
Proof. unfold threshold_of. apply Q.le_max_r. Qed.

Lemma Qle_bool_false a b : Qle_bool a b = false <-> b < a.
Proof.
  rewrite <- Bool.not_true_iff_false, Qle_bool_iff. split.
  - apply Qnot_le_lt.
  - apply Qlt_not_le.
Qed.

End NumFacts.

(* ------------------------------------------------------------------ *)
(** ** Facts about [argsort] and the pool *)

Module SortFacts.

Local Open Scope Q_scope.

Lemma sorted_snoc (R : nat -> nat -> Prop) l x :
  StronglySorted R l -> Forall (fun y => R y x) l -> StronglySorted R (l ++ [x]).
Proof.
  induction l as [|a l IH]; simpl; intros Hs Hall.
  - constructor; constructor.
  - inversion Hs; subst. inversion Hall; subst.
    constructor; [now apply IH|].
    apply Forall_app. split; [assumption | now constructor].
Qed.

Lemma Forall_firstn_keep (P : nat -> Prop) k l : Forall P l -> Forall P (firstn k l).
Proof.
  revert k. induction l as [|a l IH]; intros [|k] H; simpl; try constructor;
    inversion H; subst; auto.
Qed.

Lemma In_firstn_keep k (l : list nat) i : In i (firstn k l) -> In i l.
Proof.
  revert k. induction l as [|a l IH]; intros [|k]; simpl; try tauto.
  intros [E|H]; [now left | right; eauto].
Qed.

Lemma sorted_firstn (R : nat -> nat -> Prop) k l :
  StronglySorted R l -> StronglySorted R (firstn k l).
Proof.
  revert k. induction l as [|a l IH]; intros [|k] Hs; simpl; try constructor;
    inversion Hs; subst; auto using Forall_firstn_keep.
Qed.

Section ByKey.

Variable key : nat -> Q.

Lemma insert_by_perm i l : Permutation (insert_by key i l) (i :: l).
Proof.
  induction l as [|j rest IH]; simpl; [reflexivity|].
  destruct (Qle_bool (key i) (key j)); [reflexivity|].
  rewrite IH. apply perm_swap.
Qed.

Lemma insert_by_sorted i l :
  StronglySorted (asc key) l -> StronglySorted (asc key) (insert_by key i l).
Proof.
  induction l as [|j rest IH]; simpl; intros Hs.
  - constructor; constructor.
  - inversion Hs as [|? ? Hrest Hall]; subst.
    destruct (Qle_bool (key i) (key j)) eqn:E.
    + apply Qle_bool_iff in E. constructor; [exact Hs|].
      constructor; [exact E|].
      eapply Forall_impl; [|exact Hall].
      intros k Hk. unfold asc in *. lra.
    + apply NumFacts.Qle_bool_false in E.
      constructor; [now apply IH|].
      eapply Permutation_Forall; [symmetry; apply insert_by_perm|].
      constructor; [unfold asc; lra | exact Hall].
Qed.

Lemma sort_perm l : Permutation (fold_right (insert_by key) [] l) l.
Proof.
  induction l as [|i l IH]; simpl; [reflexivity|].
  rewrite insert_by_perm. now constructor.
Qed.

Lemma sort_sorted l : StronglySorted (asc key) (fold_right (insert_by key) [] l).
Proof.
  induction l as [|i l IH]; simpl; [constructor | now apply insert_by_sorted].
Qed.

Lemma sorted_rev l : StronglySorted (asc key) l -> StronglySorted (desc key) (rev l).
Proof.
  induction l as [|a l IH]; simpl; intros Hs; [constructor|].
  inversion Hs; subst.
  apply sorted_snoc; [now apply IH|].
  apply Forall_rev. assumption.
Qed.

End ByKey.

Lemma argsort_perm scores : Permutation (argsort scores) (seq 0 (length scores)).
Proof. apply sort_perm. Qed.

Lemma argsort_length scores : length (argsort scores) = length scores.
Proof.
  rewrite (Permutation_length (argsort_perm scores)). apply length_seq.
Qed.

(** The pool holds [min(30, n)] positions. *)
Lemma top_indices_length scores :
  length (top_indices scores) = Nat.min 30 (length scores).
Proof.
  unfold top_indices. now rewrite length_firstn, length_rev, argsort_length.
Qed.

(** The pool is in descending score order. *)
Lemma top_indices_sorted scores :
  StronglySorted (desc (at_ scores)) (top_indices scores).
Proof.
  unfold top_indices. apply sorted_firstn, sorted_rev, sort_sorted.
Qed.

Lemma top_indices_incl scores i :
  In i (top_indices scores) -> (i < length scores)%nat.
Proof.
  unfold top_indices. intros H.
  apply In_firstn_keep in H. rewrite <- in_rev in H.
  apply (Permutation_in _ (argsort_perm scores)) in H.
  apply in_seq in H. lia.
Qed.

Lemma top_indices_nodup scores : NoDup (top_indices scores).
Proof.
  unfold top_indices.
  assert (N : NoDup (rev (argsort scores))).
  { apply NoDup_rev.
    eapply Permutation_NoDup; [symmetry; apply argsort_perm | apply seq_NoDup]. }
  rewrite <- (firstn_skipn 30 (rev (argsort scores))) in N.
  now apply NoDup_app_remove_r in N.
Qed.

(** With at most 30 entries the pool is every position of the catalog. *)
Lemma top_indices_all scores i :
  (length scores <= 30)%nat -> (i < length scores)%nat -> In i (top_indices scores).
Proof.
  intros Hn Hi. unfold top_indices.
  rewrite firstn_all2 by (rewrite length_rev, argsort_length; exact Hn).
  rewrite <- in_rev.
  apply (Permutation_in _ (Permutation_sym (argsort_perm scores))).
  apply in_seq. lia.
Qed.

End SortFacts.

(* ------------------------------------------------------------------ *)
(** ** Facts about [process.extractOne] *)

Module FuzzyFacts.

Local Open Scope Q_scope.

Section Scan.

Variable scorer : string -> string -> Q.
Variable query : string.

Lemma best_at_keep seen b c :
  best_at scorer query seen b -> scorer query c <= score b ->
  best_at scorer query (seen ++ [c]) b.
Proof.
  intros (p1 & p2 & -> & Hlen & Hsc & H1 & H2) Hc.
  exists p1, (p2 ++ [c])%list. repeat split; auto.
  - now rewrite <- app_assoc.
  - apply Forall_app. split; [assumption | now constructor].
Qed.

Lemma best_at_replace seen b c :
  best_at scorer query seen b -> score b < scorer query c ->
  best_at scorer query (seen ++ [c])
          {| choice := c; score := scorer query c; index := length seen |}.
Proof.
  intros (p1 & p2 & -> & Hlen & Hsc & H1 & H2) Hc.
  exists (p1 ++ choice b :: p2)%list, []. simpl. repeat split; auto.
  apply Forall_app. split.
  - eapply Forall_impl; [|exact H1]. simpl. intros; lra.
  - constructor; [now rewrite <- Hsc|].
    eapply Forall_impl; [|exact H2]. simpl. intros; lra.
Qed.

Lemma scan_best choices : forall seen b,
  best_at scorer query seen b ->
  exists h, scan scorer query choices (length seen) (Some b) = Some h /\
            best_at scorer query (seen ++ choices) h.
Proof.
  induction choices as [|c rest IH]; intros seen b Hb; simpl.
  - exists b. now rewrite app_nil_r.
  - replace (S (length seen)) with (length (seen ++ [c])%list)
      by (rewrite length_app; simpl; lia).
    replace (seen ++ c :: rest)%list with ((seen ++ [c]) ++ rest)%list
      by (now rewrite <- app_assoc).
    destruct (Qle_bool (scorer query c) (score b)) eqn:E.
    + apply Qle_bool_iff in E. apply IH. now apply best_at_keep.
    + apply NumFacts.Qle_bool_false in E. apply IH.
      exact (best_at_replace seen b c Hb E).
Qed.

(** On a non-empty list [extractOne] returns the first of the best. *)
Lemma extractOne_best choices :
  choices <> [] ->
  exists h, extractOne scorer query choices = Some h /\
            best_at scorer query choices h.
Proof.
  destruct choices as [|c rest]; [congruence|]. intros _.
  unfold extractOne. simpl.
  apply (scan_best rest [c]).
  exists [], []. simpl. repeat split; constructor.
Qed.

Lemma best_at_in seen b : best_at scorer query seen b -> In (choice b) seen.
Proof.
  intros (p1 & p2 & -> & _). apply in_or_app. right. now left.
Qed.

Lemma best_at_max seen b c :
  best_at scorer query seen b -> In c seen -> scorer query c <= score b.
Proof.
  intros (p1 & p2 & -> & _ & Hsc & H1 & H2) Hin.
  apply in_app_or in Hin as [Hin|[<-|Hin]].
  - rewrite Forall_forall in H1. specialize (H1 _ Hin). simpl in H1. lra.
  - rewrite <- Hsc. apply Qle_refl.
  - rewrite Forall_forall in H2. now apply H2.
Qed.

Lemma scan_in choices : forall k b h,
  scan scorer query choices k b = Some h ->
  In (choice h) choices \/ b = Some h.
Proof.
  induction choices as [|c rest IH]; intros k b h; simpl; [now right|].
  intros H. apply IH in H as [H|H]; [left; now right|].
  destruct b as [b|].
  - destruct (Qle_bool (scorer query c) (score b)); [now right|].
    inversion H; subst; simpl. left; now left.
  - inversion H; subst; simpl. left; now left.
Qed.

(** Whatever [extractOne] returns is one of the choices. *)
Lemma extractOne_in choices h :
  extractOne scorer query choices = Some h -> In (choice h) choices.
Proof.
  intros H. apply scan_in in H as [H|H]; [exact H | discriminate].
Qed.

End Scan.

End FuzzyFacts.

(* ------------------------------------------------------------------ *)
(** ** Control flow of a call *)

Section Flow.

Variable V : Type.
Variable cosine : V -> V -> Q.
Variable WRatio partial_ratio : string -> string -> Q.

Local Abbreviation smart_match_movie := (smart_match_movie V WRatio partial_ratio).
Local Abbreviation resolve := (resolve V WRatio partial_ratio).
Local Abbreviation matched_title := (matched_title V WRatio partial_ratio).
Local Abbreviation locate := (locate V).
Local Abbreviation rank := (rank V cosine).
Local Abbreviation robust_recommend := (robust_recommend V cosine WRatio partial_ratio).

Implicit Types (st : store V) (q : pyval) (n : Z).

Lemma string_in_iff s l : string_in s l = true <-> In s l.
Proof.
  induction l as [|t rest IH]; simpl; [split; [discriminate | tauto]|].
  rewrite orb_true_iff, String.eqb_eq, IH. split; intros [H|H]; auto.
Qed.

(** Equations of the monad. *)
Lemma bind_gets {A B} (field : store V -> A) (k : A -> M V B) st :
  bind (gets field) k st = k (field st) st.
Proof. unfold bind, gets. simpl. destruct (k (field st) st); reflexivity. Qed.

Lemma bind_ret {A B} (a : A) (k : A -> M V B) st : bind (ret a) k st = k a st.
Proof. unfold bind, ret. simpl. destruct (k a st); reflexivity. Qed.

Lemma bind_emit {B} (e : event) (k : unit -> M V B) st :
  bind (emit e) k st =
  {| value := value (k tt st); final := final (k tt st);
     calls := e :: calls (k tt st) |}.
Proof. reflexivity. Qed.

Lemma bind_lift {A B} (o : outcome A) (k : A -> M V B) st :
  bind (lift o) k st =
  match o with
  | Ok a => k a st
  | Raise e => {| value := Raise e; final := st; calls := [] |}
  end.
Proof.
  unfold bind, lift. simpl. destruct o as [a|e]; [|reflexivity].
  destruct (k a st); reflexivity.
Qed.

Lemma bind_run {A B} (m : M V A) (k : A -> M V B) st :
  bind m k st =
  match value (m st) with
  | Raise e => {| value := Raise e; final := final (m st); calls := calls (m st) |}
  | Ok a =>
      {| value := value (k a (final (m st))); final := final (k a (final (m st)));
         calls := (calls (m st) ++ calls (k a (final (m st))))%list |}
  end.
Proof. reflexivity. Qed.

(** Case split on every condition left in the goal. *)
Ltac split_ifs :=
  repeat match goal with
         | |- context [if ?b then _ else _] => destruct b
         end.

(** The three ways out of [smart_match_movie]. *)
Lemma smart_match_movie_run u st :
  let query := strip (lower u) in
  let w := extractOne WRatio query (title_list st) in
  let p := extractOne partial_ratio query (title_list st) in
  smart_match_movie u st =
  if accepts w 80
  then {| value := Ok (choice_of w); final := st; calls := [ScoreWRatio] |}
  else if accepts p 85
  then {| value := Ok (choice_of p); final := st;
          calls := [ScoreWRatio; ScorePartialRatio] |}
  else {| value := Ok None; final := st;
          calls := [ScoreWRatio; ScorePartialRatio] |}.
Proof.
  unfold App.smart_match_movie. rewrite bind_gets, bind_emit.
  destruct (accepts (extractOne WRatio _ _) 80); [reflexivity|].
  rewrite bind_emit.
  destruct (accepts (extractOne partial_ratio _ _) 85); reflexivity.
Qed.

Lemma smart_match_movie_final u st : final (smart_match_movie u st) = st.
Proof.
  rewrite smart_match_movie_run.
  split_ifs;
    reflexivity.
Qed.

Lemma choice_of_in scorer query titles t :
  choice_of (extractOne scorer query titles) = Some t -> In t titles.
Proof.
  destruct (extractOne scorer query titles) as [h|] eqn:E; simpl; [|discriminate].
  intros H. inversion H; subst. eapply FuzzyFacts.extractOne_in; exact E.
Qed.

Lemma smart_match_movie_in u st t :
  value (smart_match_movie u st) = Ok (Some t) -> In t (title_list st).
Proof.
  rewrite smart_match_movie_run.
  split_ifs;
    cbn [value]; intros H; inversion H as [H'];
    try (now apply choice_of_in in H').
Qed.

Lemma resolve_run name st :
  resolve name st =
  if string_in name (title_list st)
  then {| value := Ok (Some name); final := st; calls := [] |}
  else smart_match_movie name st.
Proof.
  unfold App.resolve. rewrite bind_gets.
  destruct (string_in name (title_list st)); reflexivity.
Qed.

Lemma resolve_final name st : final (resolve name st) = st.
Proof.
  rewrite resolve_run.
  destruct (string_in name (title_list st)); [reflexivity|].
  apply smart_match_movie_final.
Qed.

Lemma resolve_exact name st :
  In name (title_list st) ->
  resolve name st = {| value := Ok (Some name); final := st; calls := [] |}.
Proof.
  intros H. apply string_in_iff in H. now rewrite resolve_run, H.
Qed.

Lemma resolve_in name st t :
  value (resolve name st) = Ok (Some t) -> In t (title_list st).
Proof.
  rewrite resolve_run.
  destruct (string_in name (title_list st)) eqn:E.
  - cbn [value]. intros H. inversion H; subst. now apply string_in_iff.
  - apply smart_match_movie_in.
Qed.

Lemma resolve_ok name st : exists m, value (resolve name st) = Ok m.
Proof.
  rewrite resolve_run.
  destruct (string_in name (title_list st)); [eexists; reflexivity|].
  rewrite smart_match_movie_run.
  split_ifs;
    eexists; reflexivity.
Qed.

Lemma matched_title_run q st :
  matched_title q st =
  let name := normalize_text q in
  if is_empty name then {| value := Ok None; final := st; calls := [] |}
  else
    match value (resolve name st) with
    | Raise e => {| value := Raise e; final := st; calls := calls (resolve name st) |}
    | Ok m => {| value := Ok (if falsy m then None else m); final := st;
                 calls := calls (resolve name st) |}
    end.
Proof.
  unfold App.matched_title. cbv zeta.
  destruct (is_empty (normalize_text q)); [reflexivity|].
  rewrite bind_run, resolve_final.
  destruct (value (resolve (normalize_text q) st)) as [m|e]; [|reflexivity].
  destruct (falsy m); cbn; now rewrite app_nil_r.
Qed.

Lemma matched_title_final q st : final (matched_title q st) = st.
Proof.
  rewrite matched_title_run. cbv zeta.
  destruct (is_empty (normalize_text q)); [reflexivity|].
  destruct (value (resolve (normalize_text q) st)); reflexivity.
Qed.

Lemma locate_run t st :
  locate t st =
  {| value := first_label (rows (movies st) t); final := st; calls := [] |}.
Proof.
  unfold App.locate. rewrite bind_gets. reflexivity.
Qed.

Lemma rank_run idx n st :
  rank idx n st =
  match getitem (vectors st) idx with
  | Raise e => {| value := Raise e; final := st; calls := [] |}
  | Ok x =>
      let scores := own_zeroed cosine x (vectors st) idx in
      {| value := walk (movies st) scores (threshold scores) n (top_indices scores) [];
         final := st; calls := [Cosine idx] |}
  end.
Proof.
  unfold App.rank. rewrite bind_gets, bind_lift.
  destruct (getitem (vectors st) idx) as [x|e]; [|reflexivity].
  rewrite bind_emit, bind_gets. reflexivity.
Qed.

Lemma rank_final idx n st : final (rank idx n st) = st.
Proof.
  rewrite rank_run. destruct (getitem (vectors st) idx); reflexivity.
Qed.

(** The call as one case analysis. *)
Lemma robust_recommend_run q n st :
  robust_recommend q n st =
  let m := matched_title q st in
  match value m with
  | Raise e => {| value := Raise e; final := st; calls := calls m |}
  | Ok None => {| value := Ok []; final := st; calls := calls m |}
  | Ok (Some t) =>
      match first_label (rows (movies st) t) with
      | Raise e => {| value := Raise e; final := st; calls := calls m |}
      | Ok idx =>
          {| value := value (rank idx n st); final := st;
             calls := (calls m ++ calls (rank idx n st))%list |}
      end
  end.
Proof.
  unfold App.robust_recommend. cbv zeta.
  rewrite bind_run, matched_title_final.
  destruct (value (matched_title q st)) as [[t|]|e]; [| |reflexivity].
  - rewrite bind_run, locate_run. cbn [value final calls].
    destruct (first_label (rows (movies st) t)) as [idx|e]; cbn [app].
    + now rewrite rank_final.
    + now rewrite app_nil_r.
  - cbn. now rewrite app_nil_r.
Qed.

(** A call reads the store and leaves it as it was. *)
Lemma robust_recommend_final q n st : final (robust_recommend q n st) = st.
Proof.
  rewrite robust_recommend_run. cbv zeta.
  destruct (value (matched_title q st)) as [[t|]|e]; try reflexivity.
  destruct (first_label _); reflexivity.
Qed.

Lemma after_calls_same history st :
  after_calls cosine WRatio partial_ratio history st = st.
Proof.
  unfold after_calls. induction history as [|c rest IH]; simpl; [reflexivity|].
  now rewrite robust_recommend_final.
Qed.

End Flow.

(* ------------------------------------------------------------------ *)
(** ** The loop of lines 159-164 *)

Module WalkFacts.

Local Open Scope Q_scope.

Section Loop.

Variable ms : list movie.
Variable scores : list Q.
Variable thr : Q.
Variable top_n : Z.

(** What the loop returns is the rendering of the accepted positions. *)
Lemma walk_accepted pool : forall results out,
  walk ms scores thr top_n pool results = Ok out ->
  out = (results ++ map (render ms scores) (accepted scores thr top_n pool (length results)))%list.
Proof.
  induction pool as [|i rest IH]; intros results out; cbn [walk accepted].
  - intros H. inversion H. now rewrite app_nil_r.
  - destruct (Qle_bool thr (at_ scores i)).
    + unfold getitem.
      destruct (nth_error ms i) as [m|] eqn:Em; [|discriminate].
      assert (Er : render ms scores i = (title m, round2 (at_ scores i * 100)))
        by (unfold render; now rewrite Em).
      rewrite <- Er.
      assert (El : length (results ++ [render ms scores i]) = S (length results))
        by (rewrite length_app; cbn [length]; lia).
      rewrite El.
      destruct (Z.of_nat (S (length results)) =? top_n)%Z.
      * intros H. inversion H. reflexivity.
      * intros H. apply IH in H. subst out.
        rewrite El, <- app_assoc. reflexivity.
    + destruct (Z.of_nat (length results) =? top_n)%Z.
      * intros H. inversion H. now rewrite app_nil_r.
      * apply IH.
Qed.

(** The loop cannot fail on positions that are rows of the frame. *)
Lemma walk_total pool : forall results,
  Forall (fun i => (i < length ms)%nat) pool ->
  exists out, walk ms scores thr top_n pool results = Ok out.
Proof.
  induction pool as [|i rest IH]; intros results Hall; cbn [walk].
  - now exists results.
  - inversion Hall as [|? ? Hi Hrest]; subst.
    unfold getitem.
    destruct (nth_error ms i) as [m|] eqn:Em;
      [|apply nth_error_None in Em; lia].
    destruct (Qle_bool thr (at_ scores i)).
    + destruct (Z.of_nat _ =? top_n)%Z; [eexists; reflexivity | now apply IH].
    + destruct (Z.of_nat _ =? top_n)%Z; [eexists; reflexivity | now apply IH].
Qed.

Lemma accepted_keeps (P : nat -> Prop) pool : forall count,
  Forall P pool -> Forall P (accepted scores thr top_n pool count).
Proof.
  induction pool as [|i rest IH]; intros count Hall; cbn [accepted]; [constructor|].
  inversion Hall; subst.
  destruct (Qle_bool thr (at_ scores i)).
  - constructor; [assumption|].
    destruct (Z.of_nat (S count) =? top_n)%Z; [constructor | now apply IH].
  - destruct (Z.of_nat count =? top_n)%Z; [constructor | now apply IH].
Qed.

(** Every accepted position is in the pool and reaches the threshold. *)
Lemma accepted_in pool : forall count i,
  In i (accepted scores thr top_n pool count) ->
  In i pool /\ thr <= at_ scores i.
Proof.
  induction pool as [|j rest IH]; intros count i; cbn [accepted]; [simpl; tauto|].
  destruct (Qle_bool thr (at_ scores j)) eqn:E.
  - intros [<-|H].
    + split; [now left | now apply Qle_bool_iff].
    + destruct (Z.of_nat (S count) =? top_n)%Z; [contradiction|].
      apply IH in H as [H1 H2]. split; [now right | assumption].
  - destruct (Z.of_nat count =? top_n)%Z; [contradiction|].
    intros H. apply IH in H as [H1 H2]. split; [now right | assumption].
Qed.

Lemma accepted_sorted (R : nat -> nat -> Prop) pool : forall count,
  StronglySorted R pool -> StronglySorted R (accepted scores thr top_n pool count).
Proof.
  induction pool as [|i rest IH]; intros count Hs; cbn [accepted]; [constructor|].
  inversion Hs; subst.
  destruct (Qle_bool thr (at_ scores i)).
  - constructor.
    + destruct (Z.of_nat (S count) =? top_n)%Z; [constructor | now apply IH].
    + destruct (Z.of_nat (S count) =? top_n)%Z; [constructor|].
      now apply accepted_keeps.
  - destruct (Z.of_nat count =? top_n)%Z; [constructor | now apply IH].
Qed.

(** With room left under a positive [top_n], the loop takes the first
    [top_n - count] positions that reach the threshold. *)
Lemma accepted_firstn pool : forall count,
  (Z.of_nat count < top_n)%Z ->
  accepted scores thr top_n pool count =
  firstn (Z.to_nat top_n - count)
         (filter (fun i => Qle_bool thr (at_ scores i)) pool).
Proof.
  induction pool as [|i rest IH]; intros count Hc; cbn [accepted filter].
  - now rewrite firstn_nil.
  - destruct (Qle_bool thr (at_ scores i)).
    + destruct (Z.to_nat top_n - count)%nat as [|k] eqn:Ek; [lia|].
      cbn [firstn]. f_equal.
      destruct (Z.eqb_spec (Z.of_nat (S count)) top_n) as [E|NE].
      * replace k with 0%nat by lia. reflexivity.
      * rewrite IH by lia. f_equal. lia.
    + destruct (Z.eqb_spec (Z.of_nat count) top_n) as [E|NE]; [lia|].
      now apply IH.
Qed.

(** Under a positive [top_n]: a position of the pool is accepted exactly
    when it reaches the threshold and fewer than [top_n] positions before
    it do. *)
Lemma accepted_iff pre i post :
  NoDup (pre ++ i :: post) ->
  (0 < top_n)%Z ->
  In i (accepted scores thr top_n (pre ++ i :: post) 0) <->
  thr <= at_ scores i /\
  (Z.of_nat (length (filter (fun j => Qle_bool thr (at_ scores j)) pre)) < top_n)%Z.
Proof.
  intros Hnd Hpos.
  rewrite accepted_firstn by (simpl; lia).
  rewrite Nat.sub_0_r, filter_app. cbn [filter].
  set (pass := fun j => Qle_bool thr (at_ scores j)).
  apply NoDup_remove_2 in Hnd.
  assert (HA : ~ In i (filter pass pre)).
  { intros H. apply filter_In in H as [H _]. apply Hnd, in_or_app. now left. }
  assert (HB : ~ In i (filter pass post)).
  { intros H. apply filter_In in H as [H _]. apply Hnd, in_or_app. now right. }
  rewrite firstn_app. split.
  - intros Hin. apply in_app_or in Hin as [Hin|Hin].
    + exfalso. exact (HA (SortFacts.In_firstn_keep _ _ _ Hin)).
    + destruct (Qle_bool thr (at_ scores i)) eqn:Ep.
      * split; [now apply Qle_bool_iff|].
        destruct (Z.to_nat top_n - length (filter pass pre))%nat eqn:Ek;
          [destruct Hin | lia].
      * exfalso. exact (HB (SortFacts.In_firstn_keep _ _ _ Hin)).
  - intros [Hp Hk]. apply Qle_bool_iff in Hp. rewrite Hp.
    apply in_or_app. right.
    destruct (Z.to_nat top_n - length (filter pass pre))%nat eqn:Ek; [lia|].
    now left.
Qed.

End Loop.

Lemma sorted_map_render ms scores l :
  StronglySorted (desc (at_ scores)) l ->
  StronglySorted (fun a b => snd b <= snd a) (map (render ms scores) l).
Proof.
  induction l as [|i l IH]; simpl; intros Hs; [constructor|].
  inversion Hs as [|? ? Hl Hall]; subst.
  constructor; [now apply IH|].
  apply Forall_map. eapply Forall_impl; [|exact Hall].
  intros j Hj. unfold render, desc in *. simpl.
  apply NumFacts.round2_mono. lra.
Qed.

End WalkFacts.

(* ------------------------------------------------------------------ *)
(** ** The catalog lookup of line 150 *)

Module LookupFacts.

(** The first selected label is the label of the first row with the clean
    title looked for. *)
Lemma rows_head ms : forall t idx rest,
  rows ms t = idx :: rest ->
  exists pos m,
    nth_error ms pos = Some m /\ clean_title m = t /\ label m = idx /\
    forall j mj, (j < pos)%nat -> nth_error ms j = Some mj -> clean_title mj <> t.
Proof.
  induction ms as [|m0 ms IH]; intros t idx rest; cbn [rows]; [discriminate|].
  destruct (String.eqb_spec (clean_title m0) t) as [E|NE].
  - intros H. inversion H; subst. exists 0%nat, m0.
    repeat split; auto. intros j mj Hj. lia.
  - intros H. destruct (IH t idx rest H) as (pos & m & Hn & Hc & Hl & Hleast).
    exists (S pos), m. repeat split; auto.
    intros [|j] mj Hj Hnj; cbn [nth_error] in Hnj.
    + inversion Hnj; subst. exact NE.
    + apply (Hleast j mj); [lia | exact Hnj].
Qed.

Lemma rows_some ms t : In t (map clean_title ms) -> rows ms t <> [].
Proof.
  induction ms as [|m0 ms IH]; cbn [map rows]; [intros []|].
  destruct (String.eqb_spec (clean_title m0) t) as [E|NE]; [discriminate|].
  intros [E|Hin]; [contradiction | now apply IH].
Qed.

(** What [.index[0]] returns is the label of the first row with the clean
    title. *)
Lemma first_label_row ms t idx :
  first_label (rows ms t) = Ok idx ->
  exists pos m,
    nth_error ms pos = Some m /\ clean_title m = t /\ label m = idx /\
    forall j mj, (j < pos)%nat -> nth_error ms j = Some mj -> clean_title mj <> t.
Proof.
  destruct (rows ms t) as [|i rest] eqn:Er; [discriminate|].
  cbn [first_label]. intros H. inversion H; subst i.
  exact (rows_head ms t idx rest Er).
Qed.

(** The selection of a clean title that is in the frame has a first row. *)
Lemma first_label_some ms t :
  In t (map clean_title ms) ->
  exists idx pos m,
    first_label (rows ms t) = Ok idx /\
    nth_error ms pos = Some m /\ clean_title m = t /\ label m = idx.
Proof.
  intros Hin. pose proof (rows_some ms t Hin) as Hne.
  destruct (rows ms t) as [|idx rest] eqn:Er; [contradiction|].
  destruct (rows_head ms t idx rest Er) as (pos & m & Hn & Hc & Hl & _).
  now exists idx, pos, m.
Qed.

(** On a frame whose labels are positions the label returned is a position
    of the frame. *)
Lemma first_label_bound ms t idx :
  positional ms ->
  first_label (rows ms t) = Ok idx -> (idx < length ms)%nat.
Proof.
  intros Hpos H. apply first_label_row in H as (pos & m & Hn & _ & Hl & _).
  rewrite <- Hl, (Hpos pos m Hn). apply nth_error_Some. congruence.
Qed.

Lemma nth_error_seq_same n : forall k pos v,
  nth_error (seq k n) pos = Some v -> v = (k + pos)%nat.
Proof.
  induction n as [|n IH]; intros k pos v; cbn [seq].
  - destruct pos; discriminate.
  - destruct pos as [|pos]; cbn [nth_error].
    + intros H. inversion H. lia.
    + intros H. apply IH in H. lia.
Qed.

(** A frame loaded with the labels 0, 1, 2, ... has its labels at their
    positions. *)
Lemma load_positional {V} (frame : list (nat * string)) (vs : list V) :
  map fst frame = seq 0 (length frame) ->
  positional (movies (load frame vs)).
Proof.
  intros Hidx pos m. unfold load. cbn [movies].
  rewrite nth_error_map.
  destruct (nth_error frame pos) as [r|] eqn:Er; [|discriminate].
  cbn [option_map]. intros H. inversion H; subst m. cbn [label].
  assert (Hf : nth_error (map fst frame) pos = Some (fst r))
    by (rewrite nth_error_map, Er; reflexivity).
  rewrite Hidx in Hf. apply nth_error_seq_same in Hf. lia.
Qed.

Lemma map_fst_combine {A B} (l1 : list A) : forall (l2 : list B),
  length l1 = length l2 -> map fst (combine l1 l2) = l1.
Proof.
  induction l1 as [|a l1 IH]; intros [|b l2] H; cbn [length] in H;
    try discriminate; [reflexivity|].
  cbn [combine map fst]. f_equal. apply IH. lia.
Qed.

Lemma default_index (titles : list string) :
  map fst (combine (seq 0 (length titles)) titles) =
  seq 0 (length (combine (seq 0 (length titles)) titles)).
Proof.
  rewrite map_fst_combine by apply length_seq.
  now rewrite length_combine, length_seq, Nat.min_id.
Qed.

Lemma startup_positional {V} titles (vs : list V) :
  positional (movies (startup titles vs)).
Proof. apply load_positional, default_index. Qed.

Lemma load_length {V} (frame : list (nat * string)) (vs : list V) :
  length (movies (load frame vs)) = length frame.
Proof. unfold load. cbn [movies]. apply length_map. Qed.

Lemma load_title_list {V} (frame : list (nat * string)) (vs : list V) :
  title_list (load frame vs) = map clean_title (movies (load frame vs)).
Proof. reflexivity. Qed.

End LookupFacts.

(* ------------------------------------------------------------------ *)
(** ** Properties of [smart_match_movie] and [robust_recommend] *)

Section Recommend.

Local Open Scope Q_scope.

Variable V : Type.
Variable cosine : V -> V -> Q.
Variable WRatio partial_ratio : string -> string -> Q.

Local Abbreviation smart_match_movie := (smart_match_movie V WRatio partial_ratio).
Local Abbreviation resolve := (resolve V WRatio partial_ratio).
Local Abbreviation matched_title := (matched_title V WRatio partial_ratio).
Local Abbreviation locate := (locate V).
Local Abbreviation rank := (rank V cosine).
Local Abbreviation robust_recommend := (robust_recommend V cosine WRatio partial_ratio).

Implicit Types (st : store V) (q : pyval) (n : Z).

(** The value of a call: empty, or the rendering of the positions the
    loop accepted for the located row. *)
Lemma robust_recommend_shape q n st out :
  value (robust_recommend q n st) = Ok out ->
  out = [] \/
  exists t idx x,
    value (matched_title q st) = Ok (Some t) /\
    first_label (rows (movies st) t) = Ok idx /\
    getitem (vectors st) idx = Ok x /\
    let scores := own_zeroed cosine x (vectors st) idx in
    out = map (render (movies st) scores)
              (accepted scores (threshold scores) n (top_indices scores) 0).
Proof.
  rewrite (robust_recommend_run V cosine). cbv zeta.
  destruct (value (matched_title q st)) as [[t|]|e] eqn:Em; cbn [value].
  - destruct (first_label (rows (movies st) t)) as [idx|e] eqn:El; cbn [value];
      [|discriminate].
    rewrite rank_run.
    destruct (getitem (vectors st) idx) as [x|e] eqn:Eg; cbn [value];
      [|discriminate].
    intros H. apply WalkFacts.walk_accepted in H. right.
    exists t, idx, x. repeat split; auto.
  - intros H. inversion H. now left.
  - discriminate.
Qed.

Lemma own_zeroed_length x vs idx : length (own_zeroed cosine x vs idx) = length vs.
Proof.
  unfold own_zeroed, cosine_similarity.
  now rewrite NumFacts.setitem_length, length_map.
Qed.

Lemma getitem_bound {A} (l : list A) i a : getitem l i = Ok a -> (i < length l)%nat.
Proof.
  unfold getitem. destruct (nth_error l i) eqn:E; [|discriminate].
  intros _. apply nth_error_Some. congruence.
Qed.

Lemma own_zeroed_at x vs idx :
  (idx < length vs)%nat -> at_ (own_zeroed cosine x vs idx) idx = 0.
Proof.
  intros H. unfold own_zeroed, cosine_similarity.
  apply NumFacts.setitem_at. now rewrite length_map.
Qed.

(** C1 (as the code has it): for a catalog of size n < 30, the pool over
    which the threshold is computed has exactly n members, the resolved
    entry among them with its score forced to zero; it is never of size
    30. *)
Theorem pool_of_small_catalog st idx x :
  length (vectors st) = length (movies st) ->
  (length (movies st) < 30)%nat ->
  getitem (vectors st) idx = Ok x ->
  let scores := own_zeroed cosine x (vectors st) idx in
  let pool := top_indices scores in
  length pool = length (movies st) /\
  In idx pool /\
  at_ scores idx = 0 /\
  length pool <> 30%nat.
Proof.
  intros Hal Hn Hx scores pool.
  pose proof (getitem_bound _ _ _ Hx) as Hi.
  assert (Hl : length pool = length (movies st)).
  { unfold pool. rewrite SortFacts.top_indices_length.
    unfold scores. rewrite own_zeroed_length. lia. }
  repeat split.
  - exact Hl.
  - apply SortFacts.top_indices_all; unfold scores; rewrite own_zeroed_length; lia.
  - now apply own_zeroed_at.
  - lia.
Qed.

(** C2 (as the code has it): for every query whose normalized form is not
    empty and equals some catalog title verbatim, resolution succeeds with
    that title and no fuzzy scorer is called. *)
Theorem exact_title_resolves q st :
  normalize_text q <> EmptyString ->
  In (normalize_text q) (title_list st) ->
  matched_title q st =
  {| value := Ok (Some (normalize_text q)); final := st; calls := [] |}.
Proof.
  intros Hne Hin. rewrite matched_title_run. cbv zeta.
  destruct (is_empty (normalize_text q)) eqn:E.
  - apply TextFacts.is_empty_true in E. contradiction.
  - rewrite (resolve_exact _ _ _ _ _ Hin). cbn [value calls falsy].
    now rewrite E.
Qed.

(** C4: on a non-empty candidate list and a normalized input the fuzzy
    resolver finds the first of the best candidates of each scorer, returns
    the weighted-ratio one when it scores 80 or more, else the
    partial-ratio one when it scores 85 or more, else nothing; its outcome
    is always a value, never an exception. *)
Theorem smart_match_movie_thresholds q st :
  title_list st <> [] ->
  let query := normalize_text q in
  exists w p,
    extractOne WRatio query (title_list st) = Some w /\
    best_at WRatio query (title_list st) w /\
    extractOne partial_ratio query (title_list st) = Some p /\
    best_at partial_ratio query (title_list st) p /\
    value (smart_match_movie query st) =
    Ok (if Qle_bool 80 (score w) then Some (choice w)
        else if Qle_bool 85 (score p) then Some (choice p)
        else None).
Proof.
  intros Hne query.
  destruct (FuzzyFacts.extractOne_best WRatio query _ Hne) as (w & Ew & Hw).
  destruct (FuzzyFacts.extractOne_best partial_ratio query _ Hne) as (p & Ep & Hp).
  exists w, p. repeat split; auto.
  subst query. rewrite smart_match_movie_run. cbv zeta.
  rewrite TextFacts.lower_strip_normalized, Ew, Ep. cbn [accepts choice_of].
  destruct (Qle_bool 80 (score w)); [reflexivity|].
  destruct (Qle_bool 85 (score p)); reflexivity.
Qed.

(** The row at the position the lookup returned is never accepted: the
    returned sequence is the rendering of accepted positions none of which
    is idx, whose score is zero, under the floor of the threshold.  (idx is
    an index label; see [own_row_never_recommended] for the frames where
    it is the position of the resolved row.) *)
Theorem own_entry_never_recommended q n st t idx out :
  value (matched_title q st) = Ok (Some t) ->
  first_label (rows (movies st) t) = Ok idx ->
  value (robust_recommend q n st) = Ok out ->
  exists x,
    getitem (vectors st) idx = Ok x /\
    let scores := own_zeroed cosine x (vectors st) idx in
    let kept := accepted scores (threshold scores) n (top_indices scores) 0 in
    out = map (render (movies st) scores) kept /\ ~ In idx kept.
Proof.
  intros Hm Hl Hv.
  rewrite (robust_recommend_run V cosine) in Hv. cbv zeta in Hv.
  rewrite Hm, Hl in Hv. cbn [value] in Hv. rewrite rank_run in Hv.
  destruct (getitem (vectors st) idx) as [x|e] eqn:Eg; cbn [value] in Hv;
    [|discriminate].
  exists x. split; [reflexivity|]. cbv zeta.
  split; [now apply WalkFacts.walk_accepted in Hv|].
  intros Hin. apply WalkFacts.accepted_in in Hin as [_ Hthr].
  rewrite own_zeroed_at in Hthr by (now apply getitem_bound in Eg).
  pose proof (NumFacts.threshold_floor
                (mean (take (own_zeroed cosine x (vectors st) idx)
                            (top_indices (own_zeroed cosine x (vectors st) idx))))) as Hf.
  unfold threshold in Hthr. lra.
Qed.

(** C6: when the normalized form of the input is the empty string the call
    returns the empty sequence as a value, with no scorer and no similarity
    computed, and the store as it was. *)
Theorem empty_input_returns_empty q n st :
  normalize_text q = EmptyString ->
  robust_recommend q n st = {| value := Ok []; final := st; calls := [] |}.
Proof.
  intros He. rewrite (robust_recommend_run V cosine), matched_title_run.
  cbv zeta. rewrite He. reflexivity.
Qed.

(** C7: the returned sequence is sorted by non-increasing score: of two
    adjacent recommendations the earlier one's score is at least the later
    one's. *)
Theorem recommendations_sorted q n st out :
  value (robust_recommend q n st) = Ok out ->
  Sorted (fun a b => snd b <= snd a) out.
Proof.
  intros Hv. apply robust_recommend_shape in Hv as [->|(t & idx & x & _ & _ & _ & ->)].
  - constructor.
  - apply StronglySorted_Sorted, WalkFacts.sorted_map_render,
      WalkFacts.accepted_sorted, SortFacts.top_indices_sorted.
Qed.

(** A call leaves the catalog and the vector set as they were, so in this
    embedding the same input gives the same value when the call is
    repeated, also after any other calls in between. *)
Theorem recommend_is_repeatable q n st history :
  let first := robust_recommend q n st in
  let later :=
    robust_recommend q n
      (after_calls cosine WRatio partial_ratio history (final first)) in
  value later = value first /\ calls later = calls first /\ final later = st.
Proof.
  cbv zeta. rewrite after_calls_same, !robust_recommend_final. auto.
Qed.

(** C9: [None] normalizes to the non-empty text "none", so the call does
    not take the empty-input exit.  It runs the exact-title test on "none"
    and, where that fails, the fuzzy resolver on "none"; with a title it
    goes on to the lookup and the ranking, and its value and calls are
    theirs.  On a catalog with a movie titled "None" it returns that
    movie's recommendations; on one without, both scorers are called. *)
Theorem none_query_is_text_none :
  normalize_text PyNone = "none"%string /\
  is_empty (normalize_text PyNone) = false /\
  (forall st, matched_title PyNone st =
              match value (resolve "none"%string st) with
              | Raise e => {| value := Raise e; final := st;
                              calls := calls (resolve "none"%string st) |}
              | Ok m => {| value := Ok (if falsy m then None else m); final := st;
                           calls := calls (resolve "none"%string st) |}
              end) /\
  (forall n st, robust_recommend PyNone n st = robust_recommend (PyStr "none") n st) /\
  (forall st, resolve "none"%string st =
              if string_in "none"%string (title_list st)
              then {| value := Ok (Some "none"%string); final := st; calls := [] |}
              else smart_match_movie "none"%string st) /\
  (forall n st,
      robust_recommend PyNone n st =
      let r := resolve "none"%string st in
      match value r with
      | Raise e => {| value := Raise e; final := st; calls := calls r |}
      | Ok None => {| value := Ok []; final := st; calls := calls r |}
      | Ok (Some t) =>
          if is_empty t then {| value := Ok []; final := st; calls := calls r |}
          else
            match first_label (rows (movies st) t) with
            | Raise e => {| value := Raise e; final := st; calls := calls r |}
            | Ok idx =>
                {| value := value (rank idx n st); final := st;
                   calls := (calls r ++ calls (rank idx n st))%list |}
            end
      end) /\
  App.robust_recommend nat Demo.cosine Demo.prefix_ratio Demo.no_ratio
                       PyNone 10 LabelDemo.none_catalog =
  {| value := Ok [("Batman"%string, 90); ("Heat"%string, 85)];
     final := LabelDemo.none_catalog;
     calls := [Cosine 0] |} /\
  App.robust_recommend nat Demo.cosine Demo.prefix_ratio Demo.no_ratio
                       PyNone 10 Demo.catalog =
  {| value := Ok []; final := Demo.catalog;
     calls := [ScoreWRatio; ScorePartialRatio] |}.
Proof.
  split; [reflexivity|]. split; [reflexivity|]. split; [|split; [|split; [|split]]].
  - intros st. now rewrite matched_title_run.
  - intros n st. rewrite !(robust_recommend_run V cosine), !matched_title_run.
    reflexivity.
  - intros st. apply resolve_run.
  - intros n st. rewrite (robust_recommend_run V cosine), matched_title_run.
    cbv zeta. change (is_empty (normalize_text PyNone)) with false.
    change (normalize_text PyNone) with "none"%string. cbv iota.
    destruct (value (resolve "none"%string st)) as [[t|]|e]; cbn [value calls falsy];
      [|reflexivity|reflexivity].
    destruct (is_empty t); cbn [value calls]; [reflexivity|].
    destruct (first_label (rows (movies st) t)); reflexivity.
  - split; vm_compute; reflexivity.
Qed.

(** C10: a title returned by resolution, by the exact test or by the fuzzy
    resolver, is in the clean-title list of the catalog, so the lookup of
    the first row with that clean title selects a row and does not fail. *)
Theorem resolved_title_is_located titles vs name t :
  let st := startup titles vs in
  value (resolve name st) = Ok (Some t) ->
  In t (title_list st) /\
  exists idx m,
    value (locate t st) = Ok idx /\
    nth_error (movies st) idx = Some m /\ clean_title m = t.
Proof.
  intros st Hv. apply resolve_in in Hv. split; [exact Hv|].
  rewrite locate_run. cbn [value].
  destruct (LookupFacts.first_label_some (movies st) t Hv)
    as (idx & pos & m & Hl & Hn & Hc & Hlab).
  exists idx, m. split; [exact Hl|]. split; [|exact Hc].
  rewrite <- Hlab, (LookupFacts.startup_positional titles vs pos m Hn).
  exact Hn.
Qed.

(** The same whatever the index labels of the frame are: the lookup returns
    the label of a row that has the resolved clean title. *)
Lemma resolved_title_is_located_any_index frame vs name t :
  let st := load frame vs in
  value (resolve name st) = Ok (Some t) ->
  In t (title_list st) /\
  exists idx pos m,
    value (locate t st) = Ok idx /\
    nth_error (movies st) pos = Some m /\ clean_title m = t /\ label m = idx.
Proof.
  intros st Hv. apply resolve_in in Hv. split; [exact Hv|].
  rewrite locate_run. cbn [value].
  exact (LookupFacts.first_label_some (movies st) t Hv).
Qed.

End Recommend.

(* ------------------------------------------------------------------ *)
(** ** The threshold and the cap [top_n] *)

Section Ranker.

Local Open Scope Q_scope.

(** The threshold is the larger of 0.8 times the mean of the pool and
    0.12. *)
Lemma threshold_formula scores :
  threshold scores ==
  Qmax ((8 # 10) * mean (take scores (top_indices scores))) (12 # 100).
Proof.
  unfold threshold, threshold_of.
  apply Q.max_compat; [|reflexivity].
  rewrite Qmult_comm. apply Qmult_comp; reflexivity.
Qed.

(** Under a positive [top_n] the loop returns the first [top_n] positions
    of the pool that reach the threshold. *)
Lemma accepted_positive_top_n scores thr n pool :
  (0 < n)%Z ->
  accepted scores thr n pool 0 =
  firstn (Z.to_nat n) (filter (fun i => Qle_bool thr (at_ scores i)) pool).
Proof.
  intros Hn. rewrite WalkFacts.accepted_firstn by (simpl; lia).
  now rewrite Nat.sub_0_r.
Qed.

(** On the pool of a call with a positive [top_n]: a position is accepted
    exactly when its score reaches the threshold and fewer than [top_n]
    positions before it in the pool do. *)
Lemma pool_entry_accepted_iff scores n pre i post :
  top_indices scores = (pre ++ i :: post)%list ->
  (0 < n)%Z ->
  In i (accepted scores (threshold scores) n (top_indices scores) 0) <->
  threshold scores <= at_ scores i /\
  (Z.of_nat (length (filter (fun j => Qle_bool (threshold scores) (at_ scores j)) pre)) < n)%Z.
Proof.
  intros Hpool Hn. rewrite Hpool.
  apply WalkFacts.accepted_iff; [|exact Hn].
  rewrite <- Hpool. apply SortFacts.top_indices_nodup.
Qed.

(** C3 (where the code departs from it): called with [top_n = 0] on the
    three-entry catalog the loop accepts both entries that reach the
    threshold, although no entry has fewer than zero accepted before it:
    the length test of line 163 runs after the append of line 162. *)
Theorem top_n_zero_is_not_a_cap :
  value (Demo.recommend (PyStr "Inception") 0 Demo.catalog) =
  Ok [("Batman"%string, 90); ("Heat"%string, 85)].
Proof. vm_compute. reflexivity. Qed.

(** The same call with [top_n = 1] stops after the first accepted entry. *)
Example top_n_one_is_a_cap :
  value (Demo.recommend (PyStr "Inception") 1 Demo.catalog) =
  Ok [("Batman"%string, 90)].
Proof. vm_compute. reflexivity. Qed.

(** C5 (where the code departs from it): on a frame whose index labels are
    not the positions of its rows, the query "up" resolves to the row "Up",
    at position 1 with label 0; line 150 returns the label 0, line 153
    zeroes the score at position 0, the row "Heat", and the list returned
    holds "Up" itself. *)
Theorem own_title_recommended_on_shuffled_index :
  value (matched_title nat Demo.prefix_ratio Demo.no_ratio (PyStr "up")
                       LabelDemo.shuffled) = Ok (Some "up"%string) /\
  map (fun m => (label m, title m)) (movies LabelDemo.shuffled) =
  [(2%nat, "Heat"%string); (0%nat, "Up"%string); (1%nat, "Jaws"%string)] /\
  value (locate nat "up"%string LabelDemo.shuffled) = Ok 0%nat /\
  at_ (own_zeroed Demo.cosine 0%nat (vectors LabelDemo.shuffled) 0)  1 == 9 # 10 /\
  robust_recommend nat Demo.cosine Demo.prefix_ratio Demo.no_ratio
                   (PyStr "up") 10 LabelDemo.shuffled =
  {| value := Ok [("Up"%string, 90); ("Jaws"%string, 85)];
     final := LabelDemo.shuffled;
     calls := [Cosine 0] |}.
Proof. repeat split. Qed.

End Ranker.

(* ------------------------------------------------------------------ *)
(** ** A call on loaded artifacts returns *)

Section Totality.

Variable V : Type.
Variable cosine : V -> V -> Q.
Variable WRatio partial_ratio : string -> string -> Q.

(** X15: on a frame whose index labels are the positions 0, 1, 2, ... (the
    default index) and with as many vectors as rows, a call never raises:
    it returns a list, whatever the query and [top_n]. *)
Theorem robust_recommend_returns (frame : list (nat * string)) (vs : list V) q n :
  map fst frame = seq 0 (length frame) ->
  length vs = length frame ->
  exists out,
    value (robust_recommend V cosine WRatio partial_ratio q n (load frame vs)) = Ok out.
Proof.
  intros Hidx Hal. set (st := load frame vs).
  assert (Hms : length (movies st) = length frame)
    by apply LookupFacts.load_length.
  rewrite robust_recommend_run, matched_title_run. cbv zeta.
  destruct (is_empty (normalize_text q)); cbn [value]; [eexists; reflexivity|].
  destruct (resolve_ok V WRatio partial_ratio (normalize_text q) st) as [m Hm].
  rewrite Hm. cbn [value].
  destruct (falsy m) eqn:Ef; [eexists; reflexivity|].
  destruct m as [t|]; [|discriminate].
  apply resolve_in in Hm.
  destruct (LookupFacts.first_label_some (movies st) t Hm)
    as (idx & pos & m & Hl & _).
  rewrite Hl. cbn [value]. rewrite rank_run.
  assert (Hi : (idx < length (vectors st))%nat).
  { apply LookupFacts.first_label_bound in Hl;
      [|apply LookupFacts.load_positional; exact Hidx].
    cbn [vectors st load] in *. lia. }
  unfold getitem at 1.
  destruct (nth_error (vectors st) idx) as [x|] eqn:Ex;
    [|apply nth_error_None in Ex; lia].
  cbn [value].
  apply WalkFacts.walk_total.
  apply Forall_forall. intros i Hin.
  apply SortFacts.top_indices_incl in Hin.
  rewrite own_zeroed_length in Hin. cbn [vectors st load] in *. lia.
Qed.

End Totality.

(* ------------------------------------------------------------------ *)
(** ** The properties on the small catalog *)

Section OnDemo.

Local Open Scope Q_scope.
Local Open Scope string_scope.

Example normalize_blank_inputs :
  normalize_text (PyStr "") = "" /\
  normalize_text (PyStr "   ") = "" /\
  normalize_text (PyStr "!!!") = "" /\
  normalize_text (PyStr "  Spider-Man 2: The  MOVIE!! ") = "spider man the movie".
Proof. repeat split. Qed.

(** On a two-entry frame the pool would have to hold one position and
    leave the resolved row out; it holds both. *)
Lemma pool_counts_own_entry :
  ~ (forall (st : store nat) (idx : nat) (x : nat),
        length (vectors st) = length (movies st) ->
        (length (movies st) < 30)%nat ->
        getitem (vectors st) idx = Ok x ->
        let pool := top_indices (own_zeroed Demo.cosine x (vectors st) idx) in
        length pool = (length (movies st) - 1)%nat /\ ~ In idx pool).
Proof.
  intros H.
  assert (Hlt : (length (movies Demo.blank_catalog) < 30)%nat) by (vm_compute; lia).
  destruct (H Demo.blank_catalog 0%nat 0%nat eq_refl Hlt eq_refl) as [Hl _].
  vm_compute in Hl. discriminate.
Qed.

Lemma pool_of_small_catalog_witness :
  (length (movies Demo.catalog) < 30)%nat /\
  getitem (vectors Demo.catalog) 0 = Ok 0%nat /\
  let pool := top_indices (own_zeroed Demo.cosine 0%nat (vectors Demo.catalog) 0) in
  length pool = 3%nat /\ In 0%nat pool.
Proof.
  assert (Hlt : (length (movies Demo.catalog) < 30)%nat) by (vm_compute; lia).
  split; [exact Hlt|]. split; [reflexivity|].
  destruct (pool_of_small_catalog nat Demo.cosine Demo.catalog 0%nat 0%nat
              eq_refl Hlt eq_refl) as (Hl & Hin & _).
  split; [exact Hl | exact Hin].
Defined.

(** A blank title is in the title list as the empty string; the query
    that normalizes to it leaves by the empty-input exit. *)
Lemma blank_title_is_not_resolved :
  ~ (forall (q : pyval) (st : store nat),
        In (normalize_text q) (title_list st) ->
        value (matched_title nat Demo.prefix_ratio Demo.no_ratio q st) =
        Ok (Some (normalize_text q))).
Proof.
  intros H.
  assert (Hin : In (normalize_text (PyStr "!!!")) (title_list Demo.blank_catalog))
    by (now left).
  specialize (H _ _ Hin). vm_compute in H. discriminate.
Qed.

Lemma exact_title_resolves_witness :
  normalize_text (PyStr "Batman!") <> "" /\
  In (normalize_text (PyStr "Batman!")) (title_list Demo.catalog) /\
  matched_title nat Demo.prefix_ratio Demo.no_ratio (PyStr "Batman!") Demo.catalog =
  {| value := Ok (Some "batman"); final := Demo.catalog; calls := [] |}.
Proof.
  assert (Hne : normalize_text (PyStr "Batman!") <> "") by (vm_compute; discriminate).
  assert (Hin : In (normalize_text (PyStr "Batman!")) (title_list Demo.catalog))
    by (right; now left).
  split; [exact Hne|]. split; [exact Hin|].
  exact (exact_title_resolves nat Demo.prefix_ratio Demo.no_ratio
           (PyStr "Batman!") Demo.catalog Hne Hin).
Defined.

Lemma smart_match_movie_thresholds_witness :
  title_list Demo.catalog <> [] /\
  exists w p,
    extractOne Demo.prefix_ratio "inceptio" (title_list Demo.catalog) = Some w /\
    best_at Demo.prefix_ratio "inceptio" (title_list Demo.catalog) w /\
    extractOne Demo.no_ratio "inceptio" (title_list Demo.catalog) = Some p /\
    best_at Demo.no_ratio "inceptio" (title_list Demo.catalog) p /\
    value (smart_match_movie nat Demo.prefix_ratio Demo.no_ratio "inceptio" Demo.catalog) =
    Ok (if Qle_bool 80 (score w) then Some (choice w)
        else if Qle_bool 85 (score p) then Some (choice p)
        else None).
Proof.
  assert (Hne : title_list Demo.catalog <> []) by (vm_compute; discriminate).
  split; [exact Hne|].
  exact (smart_match_movie_thresholds nat Demo.prefix_ratio Demo.no_ratio
           (PyStr "Inceptio") Demo.catalog Hne).
Defined.

Lemma own_entry_never_recommended_witness :
  value (matched_title nat Demo.prefix_ratio Demo.no_ratio (PyStr "Inception") Demo.catalog) =
  Ok (Some "inception") /\
  first_label (rows (movies Demo.catalog) "inception") = Ok 0%nat /\
  value (Demo.recommend (PyStr "Inception") 10 Demo.catalog) =
  Ok [("Batman", 90); ("Heat", 85)] /\
  exists x,
    getitem (vectors Demo.catalog) 0 = Ok x /\
    let scores := own_zeroed Demo.cosine x (vectors Demo.catalog) 0 in
    let kept := accepted scores (threshold scores) 10 (top_indices scores) 0 in
    [("Batman", 90); ("Heat", 85)] = map (render (movies Demo.catalog) scores) kept /\
    ~ In 0%nat kept.
Proof.
  assert (Hm : value (matched_title nat Demo.prefix_ratio Demo.no_ratio
                        (PyStr "Inception") Demo.catalog) = Ok (Some "inception"))
    by (vm_compute; reflexivity).
  assert (Hl : first_label (rows (movies Demo.catalog) "inception") = Ok 0%nat)
    by (vm_compute; reflexivity).
  assert (Hv : value (Demo.recommend (PyStr "Inception") 10 Demo.catalog) =
               Ok [("Batman", 90); ("Heat", 85)])
    by (vm_compute; reflexivity).
  split; [exact Hm|]. split; [exact Hl|]. split; [exact Hv|].
  exact (own_entry_never_recommended nat Demo.cosine Demo.prefix_ratio Demo.no_ratio
           (PyStr "Inception") 10 Demo.catalog "inception" 0%nat _ Hm Hl Hv).
Defined.

Lemma empty_input_returns_empty_witness :
  normalize_text (PyStr "!!!") = "" /\
  Demo.recommend (PyStr "!!!") 10 Demo.catalog =
  {| value := Ok []; final := Demo.catalog; calls := [] |}.
Proof.
  split; [reflexivity|].
  exact (empty_input_returns_empty nat Demo.cosine Demo.prefix_ratio Demo.no_ratio
           (PyStr "!!!") 10 Demo.catalog eq_refl).
Defined.

Lemma recommendations_sorted_witness :
  value (Demo.recommend (PyStr "Inception") 10 Demo.catalog) =
  Ok [("Batman", 90); ("Heat", 85)] /\
  Sorted (fun a b => snd b <= snd a) [("Batman", 90); ("Heat", 85)].
Proof.
  assert (Hv : value (Demo.recommend (PyStr "Inception") 10 Demo.catalog) =
               Ok [("Batman", 90); ("Heat", 85)])
    by (vm_compute; reflexivity).
  split; [exact Hv|].
  exact (recommendations_sorted nat Demo.cosine Demo.prefix_ratio Demo.no_ratio
           (PyStr "Inception") 10 Demo.catalog _ Hv).
Defined.

Lemma resolved_title_is_located_witness :
  value (resolve nat Demo.prefix_ratio Demo.no_ratio "inceptio" Demo.catalog) =
  Ok (Some "inception") /\
  In "inception" (title_list Demo.catalog) /\
  exists idx m,
    value (locate nat "inception" Demo.catalog) = Ok idx /\
    nth_error (movies Demo.catalog) idx = Some m /\ clean_title m = "inception".
Proof.
  assert (Hv : value (resolve nat Demo.prefix_ratio Demo.no_ratio "inceptio"
                        (startup ["Inception"; "Batman"; "Heat"] [0; 1; 2]%nat)) =
               Ok (Some "inception"))
    by (vm_compute; reflexivity).
  split; [exact Hv|].
  exact (resolved_title_is_located nat Demo.prefix_ratio Demo.no_ratio
           ["Inception"; "Batman"; "Heat"] [0; 1; 2]%nat "inceptio" "inception" Hv).
Defined.

End OnDemo.

(* ------------------------------------------------------------------ *)
(** ** The shape of a normalized text *)

Module ShapeFacts.

Import TextFacts.

Lemma sub_spaces_head s : starts_with_space (sub_spaces s) = starts_with_space s.
Proof.
  induction s as [|c s IH]; [reflexivity|]. cbn [sub_spaces starts_with_space].
  destruct (is_space c) eqn:E.
  - destruct (starts_with_space s) eqn:Es; [now rewrite IH | reflexivity].
  - cbn [starts_with_space]. exact E.
Qed.

Lemma sub_spaces_spaced s : spaced (sub_spaces s) = true.
Proof.
  induction s as [|c s IH]; [reflexivity|]. cbn [sub_spaces].
  destruct (is_space c) eqn:E.
  - destruct (starts_with_space s) eqn:Es; [exact IH|].
    cbn [spaced]. now rewrite sub_spaces_head, Es, andb_false_r, IH.
  - cbn [spaced]. now rewrite E, IH.
Qed.

Lemma spaced_lstrip s : spaced s = true -> spaced (lstrip s) = true.
Proof.
  induction s as [|c s IH]; [reflexivity|]. cbn [lstrip spaced].
  intros H. apply andb_true_iff in H as [Hc Hs].
  destruct (is_space c) eqn:E; [now apply IH|].
  cbn [spaced]. now rewrite E, Hs.
Qed.

(** What [rstrip] keeps starts as the text does. *)
Lemma rstrip_same_head s :
  starts_with_space (rstrip s) = true -> starts_with_space s = true.
Proof.
  destruct s as [|c s]; [discriminate|]. cbn [rstrip].
  destruct (rstrip s); destruct (is_space c) eqn:E;
    cbn [starts_with_space]; rewrite ?E; auto; discriminate.
Qed.

Lemma spaced_rstrip s : spaced s = true -> spaced (rstrip s) = true.
Proof.
  induction s as [|c s IH]; [reflexivity|]. cbn [rstrip spaced].
  intros H. apply andb_true_iff in H as [Hc Hs]. specialize (IH Hs).
  destruct (rstrip s) as [|d r] eqn:Er.
  - destruct (is_space c) eqn:E; [reflexivity|]. cbn [spaced]. now rewrite E.
  - cbn [spaced] in *. rewrite IH, andb_true_r. cbn [starts_with_space].
    destruct (is_space c) eqn:E; [|reflexivity].
    destruct (is_space d) eqn:Ed; [|reflexivity].
    assert (Hh : starts_with_space s = true).
    { apply rstrip_same_head. rewrite Er. exact Ed. }
    rewrite Hh in Hc. discriminate.
Qed.

Lemma rstrip_no_trailing s : ends_with_space (rstrip s) = false.
Proof.
  induction s as [|c s IH]; [reflexivity|]. cbn [rstrip].
  destruct (rstrip s) as [|d r] eqn:Er.
  - destruct (is_space c) eqn:E; [reflexivity | cbn; exact E].
  - exact IH.
Qed.

Lemma plain_keeps c : plain c = true -> (is_az c || is_space c) = true.
Proof.
  destruct c as [[] [] [] [] [] [] [] []]; vm_compute; congruence.
Qed.

Lemma sub_non_letters_plain s : all_chars plain s = true -> sub_non_letters s = s.
Proof.
  induction s as [|c s IH]; [reflexivity|]. cbn [all_chars sub_non_letters].
  intros H. apply andb_true_iff in H as [Hc Hs].
  now rewrite (plain_keeps _ Hc), IH.
Qed.

Lemma sub_spaces_fixed s :
  all_chars plain s = true -> spaced s = true -> sub_spaces s = s.
Proof.
  induction s as [|c s IH]; [reflexivity|]. cbn [all_chars spaced sub_spaces].
  intros Hp Hs.
  apply andb_true_iff in Hp as [Hc Hp]. apply andb_true_iff in Hs as [Hd Hs].
  rewrite (IH Hp Hs).
  destruct (is_space c) eqn:E; [|reflexivity].
  destruct (starts_with_space s); [discriminate|].
  now rewrite (space_plain c E Hc).
Qed.

Lemma normalize_text_spaced t : spaced (normalize_text t) = true.
Proof.
  unfold normalize_text, strip.
  apply spaced_rstrip, spaced_lstrip, sub_spaces_spaced.
Qed.

Lemma lower_char_idem c : lower_char (lower_char c) = lower_char c.
Proof.
  destruct c as [[] [] [] [] [] [] [] []]; vm_compute; reflexivity.
Qed.

Lemma lower_idem s : lower (lower s) = lower s.
Proof.
  induction s as [|c s IH]; [reflexivity|]. cbn [lower].
  now rewrite lower_char_idem, IH.
Qed.

End ShapeFacts.

(* ------------------------------------------------------------------ *)
(** ** More properties of [normalize_text] *)

Section Normalizer.

(** X1: normalizing is idempotent: the normalized text of a normalized text
    is that text. *)
Theorem normalize_text_idempotent t :
  normalize_text (PyStr (normalize_text t)) = normalize_text t.
Proof.
  unfold normalize_text at 1. cbn [str].
  rewrite (TextFacts.lower_plain _ (TextFacts.normalize_text_plain t)).
  rewrite (ShapeFacts.sub_non_letters_plain _ (TextFacts.normalize_text_plain t)).
  rewrite (ShapeFacts.sub_spaces_fixed _ (TextFacts.normalize_text_plain t)
             (ShapeFacts.normalize_text_spaced t)).
  unfold normalize_text. apply TextFacts.strip_idem.
Qed.

(** X2: a normalized text holds only the letters a-z and the space, no two
    spaces in a row, and neither starts nor ends with a space. *)
Theorem normalize_text_shape t :
  all_chars plain (normalize_text t) = true /\
  spaced (normalize_text t) = true /\
  starts_with_space (normalize_text t) = false /\
  ends_with_space (normalize_text t) = false.
Proof.
  split; [apply TextFacts.normalize_text_plain|].
  split; [apply ShapeFacts.normalize_text_spaced|].
  unfold normalize_text, strip. split.
  - apply TextFacts.rstrip_head, TextFacts.lstrip_head.
  - apply ShapeFacts.rstrip_no_trailing.
Qed.

End Normalizer.

(* ------------------------------------------------------------------ *)
(** ** More about the pool and the loop *)

Module RankFacts.

Local Open Scope Q_scope.

Section Loop.

Variable ms : list movie.
Variable scores : list Q.
Variable thr : Q.
Variable top_n : Z.

(** Where the loop returns, every accepted position is a row of the frame. *)
Lemma walk_in_range pool : forall results out,
  walk ms scores thr top_n pool results = Ok out ->
  Forall (fun i => (i < length ms)%nat)
         (accepted scores thr top_n pool (length results)).
Proof.
  induction pool as [|i rest IH]; intros results out; cbn [walk accepted];
    [constructor|].
  destruct (Qle_bool thr (at_ scores i)).
  - unfold getitem.
    destruct (nth_error ms i) as [m|] eqn:Em; [|discriminate].
    assert (Hi : (i < length ms)%nat) by (apply nth_error_Some; congruence).
    set (results' := (results ++ [(title m, round2 (at_ scores i * 100))])%list).
    assert (El : length results' = S (length results))
      by (unfold results'; rewrite length_app; cbn [length]; lia).
    rewrite El.
    destruct (Z.of_nat (S (length results)) =? top_n)%Z.
    + intros _. constructor; [exact Hi | constructor].
    + intros H. apply IH in H. rewrite El in H. now constructor.
  - destruct (Z.of_nat (length results) =? top_n)%Z; [constructor | apply IH].
Qed.

Lemma accepted_length pool : forall count,
  (length (accepted scores thr top_n pool count) <= length pool)%nat.
Proof.
  induction pool as [|i rest IH]; intros count; cbn [accepted length]; [lia|].
  destruct (Qle_bool thr (at_ scores i)).
  - cbn [length]. destruct (Z.of_nat (S count) =? top_n)%Z.
    + cbn [length]. lia.
    + specialize (IH (S count)). lia.
  - destruct (Z.of_nat count =? top_n)%Z.
    + cbn [length]. lia.
    + specialize (IH count). lia.
Qed.

Lemma accepted_nodup pool : forall count,
  NoDup pool -> NoDup (accepted scores thr top_n pool count).
Proof.
  induction pool as [|i rest IH]; intros count Hnd; cbn [accepted];
    [constructor|].
  inversion Hnd as [|? ? Hni Hrest]; subst.
  destruct (Qle_bool thr (at_ scores i)).
  - constructor.
    + destruct (Z.of_nat (S count) =? top_n)%Z; [intros []|].
      intros Hin. apply WalkFacts.accepted_in in Hin as [Hin _]. contradiction.
    + destruct (Z.of_nat (S count) =? top_n)%Z; [constructor | now apply IH].
  - destruct (Z.of_nat count =? top_n)%Z; [constructor | now apply IH].
Qed.

(** In a pool in descending order the first accepted position is the first
    position of the pool. *)
Lemma accepted_head pool : forall count i rest,
  StronglySorted (desc (at_ scores)) pool ->
  accepted scores thr top_n pool count = i :: rest ->
  exists tail, pool = i :: tail.
Proof.
  destruct pool as [|j tail]; intros count i rest Hs; cbn [accepted];
    [discriminate|].
  destruct (Qle_bool thr (at_ scores j)) eqn:E.
  - intros H. inversion H; subst. now exists tail.
  - destruct (Z.of_nat count =? top_n)%Z; [discriminate|].
    intros H.
    assert (Hin : In i (accepted scores thr top_n tail count))
      by (rewrite H; now left).
    apply WalkFacts.accepted_in in Hin as [Hin Hthr].
    inversion Hs as [|? ? _ Hall]; subst.
    rewrite Forall_forall in Hall. specialize (Hall _ Hin).
    apply NumFacts.Qle_bool_false in E. unfold desc in Hall. lra.
Qed.

End Loop.

(** The first position of the pool has the highest score of the array. *)
Lemma top_indices_head_max scores i rest j :
  top_indices scores = i :: rest ->
  (j < length scores)%nat ->
  at_ scores j <= at_ scores i.
Proof.
  unfold top_indices. intros Hpool Hj.
  pose proof (SortFacts.sorted_rev (at_ scores) _
                (SortFacts.sort_sorted (at_ scores) (seq 0 (length scores)))) as Hs.
  fold (argsort scores) in Hs.
  assert (Hin : In j (rev (argsort scores))).
  { rewrite <- in_rev.
    apply (Permutation_in _ (Permutation_sym (SortFacts.argsort_perm scores))).
    apply in_seq. lia. }
  destruct (rev (argsort scores)) as [|k tail]; [destruct Hin|].
  cbn [firstn] in Hpool. inversion Hpool; subst k.
  inversion Hs as [|? ? _ Hall]; subst.
  destruct Hin as [<-|Hin]; [apply Qle_refl|].
  rewrite Forall_forall in Hall. exact (Hall _ Hin).
Qed.

Lemma nodup_below_length (l : list nat) n i :
  NoDup l -> (forall j, In j l -> (j < n)%nat) -> (i < n)%nat -> ~ In i l ->
  (S (length l) <= n)%nat.
Proof.
  intros Hnd Hlt Hi Hni.
  assert (Hnd' : NoDup (i :: l)) by (now constructor).
  assert (Hincl : incl (i :: l) (seq 0 n)).
  { intros j [<-|Hj]; apply in_seq; [lia|]. specialize (Hlt _ Hj). lia. }
  pose proof (NoDup_incl_length Hnd' Hincl) as H.
  rewrite length_seq in H. exact H.
Qed.

Lemma round2_12 : 12 <= round2 12.
Proof. apply Qle_bool_iff. vm_compute. reflexivity. Qed.

Lemma render_title ms scores i m :
  nth_error ms i = Some m -> fst (render ms scores i) = title m.
Proof. intros H. unfold render. cbn [fst]. now rewrite H. Qed.

End RankFacts.

(* ------------------------------------------------------------------ *)
(** ** More properties of [robust_recommend] *)

Section Ranking.

Local Open Scope Q_scope.

Variable V : Type.
Variable cosine : V -> V -> Q.
Variable WRatio partial_ratio : string -> string -> Q.

Local Abbreviation smart_match_movie := (smart_match_movie V WRatio partial_ratio).
Local Abbreviation resolve := (resolve V WRatio partial_ratio).
Local Abbreviation matched_title := (matched_title V WRatio partial_ratio).
Local Abbreviation locate := (locate V).
Local Abbreviation robust_recommend := (robust_recommend V cosine WRatio partial_ratio).

Implicit Types (st : store V) (q : pyval) (n : Z).

(** The value of a call, by the stage that decides it. *)
Lemma robust_recommend_value q n st :
  value (robust_recommend q n st) =
  match value (matched_title q st) with
  | Raise e => Raise e
  | Ok None => Ok []
  | Ok (Some t) =>
      match first_label (rows (movies st) t) with
      | Raise e => Raise e
      | Ok idx =>
          match getitem (vectors st) idx with
          | Raise e => Raise e
          | Ok x =>
              let scores := own_zeroed cosine x (vectors st) idx in
              walk (movies st) scores (threshold scores) n (top_indices scores) []
          end
      end
  end.
Proof.
  rewrite (robust_recommend_run V cosine). cbv zeta.
  destruct (value (matched_title q st)) as [[t|]|e]; try reflexivity.
  destruct (first_label (rows (movies st) t)) as [idx|e]; [|reflexivity].
  cbn [value]. rewrite rank_run.
  destruct (getitem (vectors st) idx); reflexivity.
Qed.

(** A returned list is empty for want of a title, or the rendering of the
    positions accepted for the located row, all of them rows of the frame
    other than the located one. *)
Lemma robust_recommend_kept q n st out :
  value (robust_recommend q n st) = Ok out ->
  (value (matched_title q st) = Ok None /\ out = []) \/
  exists t idx x,
    value (matched_title q st) = Ok (Some t) /\
    first_label (rows (movies st) t) = Ok idx /\
    getitem (vectors st) idx = Ok x /\
    let scores := own_zeroed cosine x (vectors st) idx in
    let kept := accepted scores (threshold scores) n (top_indices scores) 0 in
    out = map (render (movies st) scores) kept /\
    Forall (fun i => (i < length (movies st))%nat) kept /\
    NoDup kept /\
    ~ In idx kept.
Proof.
  rewrite robust_recommend_value.
  destruct (value (matched_title q st)) as [[t|]|e] eqn:Em; [| |discriminate].
  - destruct (first_label (rows (movies st) t)) as [idx|e] eqn:El; [|discriminate].
    destruct (getitem (vectors st) idx) as [x|e] eqn:Eg; [|discriminate].
    cbv zeta. intros Hw. right. exists t, idx, x.
    split; [reflexivity|]. split; [exact El|]. split; [exact Eg|].
    repeat split.
    + now apply WalkFacts.walk_accepted in Hw.
    + now apply RankFacts.walk_in_range in Hw.
    + apply RankFacts.accepted_nodup, SortFacts.top_indices_nodup.
    + intros Hin. apply WalkFacts.accepted_in in Hin as [_ Hthr].
      rewrite (own_zeroed_at V cosine) in Hthr by (now apply getitem_bound in Eg).
      pose proof (NumFacts.threshold_floor
                    (mean (take (own_zeroed cosine x (vectors st) idx)
                                (top_indices (own_zeroed cosine x (vectors st) idx)))))
        as Hf.
      unfold threshold in Hthr. lra.
  - intros H. inversion H. now left.
Qed.

(** X3: a returned list has at most 30 entries and fewer entries than the
    vector set has rows; under a positive [top_n] it has at most [top_n]
    entries. *)
Theorem recommendations_bounded q n st out :
  value (robust_recommend q n st) = Ok out ->
  (length out <= 30)%nat /\
  (length out <= length (vectors st) - 1)%nat /\
  ((0 < n)%Z -> (Z.of_nat (length out) <= n)%Z).
Proof.
  intros Hv.
  apply robust_recommend_kept in Hv
    as [[_ ->]|(t & idx & x & _ & _ & Hx & Hout & _ & Hnd & Hni)].
  - cbn [length]. repeat split; lia.
  - cbv zeta in *. subst out. rewrite length_map.
    set (scores := own_zeroed cosine x (vectors st) idx) in *.
    assert (Hlen : length scores = length (vectors st))
      by apply (own_zeroed_length V cosine).
    pose proof (RankFacts.accepted_length scores (threshold scores) n
                  (top_indices scores) 0) as Hle.
    rewrite SortFacts.top_indices_length in Hle.
    split; [lia|]. split.
    + assert (S (length (accepted scores (threshold scores) n (top_indices scores) 0))
              <= length (vectors st))%nat; [|lia].
      apply RankFacts.nodup_below_length with (i := idx); auto.
      * intros j Hj. apply WalkFacts.accepted_in in Hj as [Hj _].
        apply SortFacts.top_indices_incl in Hj. lia.
      * now apply getitem_bound in Hx.
    + intros Hn. rewrite accepted_positive_top_n by exact Hn.
      rewrite length_firstn. lia.
Qed.

(** X4: every returned score is at least 12. *)
Theorem recommended_scores_at_least_12 q n st out :
  value (robust_recommend q n st) = Ok out ->
  Forall (fun r => 12 <= snd r) out.
Proof.
  intros Hv.
  apply robust_recommend_kept in Hv
    as [[_ ->]|(t & idx & x & _ & _ & _ & Hout & _)]; [constructor|].
  cbv zeta in Hout. subst out. apply Forall_map, Forall_forall.
  intros i Hin. apply WalkFacts.accepted_in in Hin as [_ Hthr].
  unfold render. cbn [snd].
  eapply Qle_trans; [apply RankFacts.round2_12|].
  apply NumFacts.round2_mono.
  pose proof (NumFacts.threshold_floor
                (mean (take (own_zeroed cosine x (vectors st) idx)
                            (top_indices (own_zeroed cosine x (vectors st) idx)))))
    as Hf.
  unfold threshold in Hthr. lra.
Qed.

(** X5: every returned title is the display title of a row of the
    catalog. *)
Theorem recommended_titles_from_catalog q n st out :
  value (robust_recommend q n st) = Ok out ->
  Forall (fun r => exists m, In m (movies st) /\ title m = fst r) out.
Proof.
  intros Hv.
  apply robust_recommend_kept in Hv
    as [[_ ->]|(t & idx & x & _ & _ & _ & Hout & Hrange & _)]; [constructor|].
  cbv zeta in *. subst out. apply Forall_map.
  eapply Forall_impl; [|exact Hrange].
  intros i Hi. cbv beta in Hi.
  destruct (nth_error (movies st) i) as [m|] eqn:Em;
    [|apply nth_error_None in Em; lia].
  exists m. split; [eapply nth_error_In; exact Em|].
  symmetry. now apply RankFacts.render_title.
Qed.

End Ranking.

(* ------------------------------------------------------------------ *)
(** ** Titles, rows and the order of the frame *)

Module FrameFacts.

Lemma titles_inj (ms : list movie) i j mi mj :
  NoDup (map title ms) ->
  nth_error ms i = Some mi -> nth_error ms j = Some mj ->
  title mi = title mj -> i = j.
Proof.
  intros Hnd Hi Hj E.
  apply (proj1 (NoDup_nth_error (map title ms)) Hnd).
  - rewrite length_map. apply nth_error_Some. congruence.
  - rewrite !nth_error_map, Hi, Hj. cbn. now rewrite E.
Qed.

Lemma nodup_map_on {A B} (f : A -> B) (l : list A) :
  NoDup l ->
  (forall a b, In a l -> In b l -> f a = f b -> a = b) ->
  NoDup (map f l).
Proof.
  induction l as [|a l IH]; intros Hnd Hinj; cbn [map]; [constructor|].
  inversion Hnd as [|? ? Hni Hl]; subst. constructor.
  - intros Hin. apply in_map_iff in Hin as (b & E & Hb).
    assert (b = a) by (apply Hinj; [now right | now left | exact E]).
    subst b. contradiction.
  - apply IH; [exact Hl|]. intros b c Hb Hc. apply Hinj; now right.
Qed.

End FrameFacts.

(* ------------------------------------------------------------------ *)
(** ** Resolution, lookup and the shape of the returned list *)

Section Orchestrator.

Local Open Scope Q_scope.

Variable V : Type.
Variable cosine : V -> V -> Q.
Variable WRatio partial_ratio : string -> string -> Q.

Local Abbreviation smart_match_movie := (smart_match_movie V WRatio partial_ratio).
Local Abbreviation resolve := (resolve V WRatio partial_ratio).
Local Abbreviation matched_title := (matched_title V WRatio partial_ratio).
Local Abbreviation locate := (locate V).
Local Abbreviation rank := (rank V cosine).
Local Abbreviation robust_recommend := (robust_recommend V cosine WRatio partial_ratio).

Implicit Types (st : store V) (q : pyval) (n : Z).

(** X6: when the display titles of the catalog are pairwise different, no
    title is recommended twice; when moreover the index labels of the frame
    are the positions of its rows, the row the query resolved to (the first
    row with the matched clean title) is at the position the lookup
    returns and its title is not recommended. *)
Theorem distinct_titles_distinct_recommendations q n st out :
  NoDup (map title (movies st)) ->
  value (robust_recommend q n st) = Ok out ->
  NoDup (map fst out) /\
  (positional (movies st) ->
   forall t,
     value (matched_title q st) = Ok (Some t) ->
     exists idx m,
       first_label (rows (movies st) t) = Ok idx /\
       nth_error (movies st) idx = Some m /\
       clean_title m = t /\
       (forall j mj, (j < idx)%nat -> nth_error (movies st) j = Some mj ->
                     clean_title mj <> t) /\
       ~ In (title m) (map fst out)).
Proof.
  intros Hnd Hv.
  apply (robust_recommend_kept V cosine) in Hv
    as [[Hm ->]|(t & idx & x & Hm & Hl & _ & Hout & Hrange & Hkept & Hni)].
  - split; [constructor|]. intros _ t Ht. rewrite Hm in Ht. discriminate.
  - cbv zeta in *. subst out. rewrite map_map.
    set (scores := own_zeroed cosine x (vectors st) idx) in *.
    set (kept := accepted scores (threshold scores) n (top_indices scores) 0) in *.
    rewrite Forall_forall in Hrange.
    assert (Hrow : forall i, In i kept -> exists m, nth_error (movies st) i = Some m).
    { intros i Hi. specialize (Hrange _ Hi). cbv beta in Hrange.
      destruct (nth_error (movies st) i) as [m|] eqn:E; [now exists m|].
      apply nth_error_None in E. lia. }
    split.
    + apply FrameFacts.nodup_map_on; [exact Hkept|].
      intros a b Ha Hb E.
      destruct (Hrow _ Ha) as [ma Ema]. destruct (Hrow _ Hb) as [mb Emb].
      rewrite (RankFacts.render_title _ _ _ _ Ema),
        (RankFacts.render_title _ _ _ _ Emb) in E.
      exact (FrameFacts.titles_inj _ _ _ _ _ Hnd Ema Emb E).
    + intros Hpos t' Hm'.
      rewrite Hm in Hm'. inversion Hm'; subst t'.
      destruct (LookupFacts.first_label_row _ _ _ Hl)
        as (pos & m & Hn & Hc & Hlab & Hleast).
      assert (pos = idx) by (rewrite <- Hlab; symmetry; exact (Hpos pos m Hn)).
      subst pos. exists idx, m. repeat split; auto.
      intros Hin. apply in_map_iff in Hin as (i & E & Hi).
      destruct (Hrow _ Hi) as [mi Emi].
      rewrite (RankFacts.render_title _ _ _ _ Emi) in E.
      assert (i = idx) by exact (FrameFacts.titles_inj _ _ _ _ _ Hnd Emi Hn E).
      subst i. contradiction.
Qed.

(** X7: with at most one row in the vector set nothing is recommended,
    whatever the query. *)
Theorem single_entry_catalog_recommends_nothing q n st out :
  (length (vectors st) <= 1)%nat ->
  value (robust_recommend q n st) = Ok out ->
  out = [].
Proof.
  intros Hone Hv.
  apply (robust_recommend_kept V cosine) in Hv
    as [[_ ->]|(t & idx & x & _ & _ & Hx & Hout & _ & Hkept & Hni)];
    [reflexivity|].
  cbv zeta in *.
  set (scores := own_zeroed cosine x (vectors st) idx) in *.
  destruct (accepted scores (threshold scores) n (top_indices scores) 0)
    as [|i rest] eqn:Ek; [exact Hout|].
  exfalso.
  assert (Hin : In i (accepted scores (threshold scores) n (top_indices scores) 0))
    by (rewrite Ek; now left).
  apply WalkFacts.accepted_in in Hin as [Hin _].
  apply SortFacts.top_indices_incl in Hin.
  unfold scores in Hin. rewrite (own_zeroed_length V cosine) in Hin.
  apply getitem_bound in Hx.
  apply Hni. left. lia.
Qed.

(** X8: on an empty catalog every call returns the empty list; it does not
    raise, whatever the vector set holds. *)
Theorem empty_catalog_recommends_nothing q n st :
  title_list st = [] ->
  value (robust_recommend q n st) = Ok [].
Proof.
  intros He. rewrite (robust_recommend_value V cosine), matched_title_run.
  cbv zeta. destruct (is_empty (normalize_text q)); [reflexivity|].
  rewrite resolve_run, He. cbn [string_in].
  rewrite smart_match_movie_run, He. reflexivity.
Qed.

(** X9: the lookup returns the index label of the first row whose clean
    title is the matched one: some row has that clean title and the label
    returned, and no earlier row has that clean title. *)
Theorem locate_first_occurrence t st idx :
  value (locate t st) = Ok idx ->
  exists pos m,
    nth_error (movies st) pos = Some m /\ clean_title m = t /\ label m = idx /\
    forall j mj, (j < pos)%nat -> nth_error (movies st) j = Some mj ->
                 clean_title mj <> t.
Proof.
  rewrite locate_run. cbn [value]. apply LookupFacts.first_label_row.
Qed.

(** X10: when the vector set has no row at the position given by the index
    label of the first row with the matched title, the call raises
    [IndexError]. *)
Theorem short_vectors_raise q n st t idx :
  value (matched_title q st) = Ok (Some t) ->
  first_label (rows (movies st) t) = Ok idx ->
  (length (vectors st) <= idx)%nat ->
  value (robust_recommend q n st) = Raise IndexError.
Proof.
  intros Hm Hl Hshort.
  rewrite (robust_recommend_value V cosine), Hm, Hl.
  unfold getitem.
  destruct (nth_error (vectors st) idx) eqn:E; [|reflexivity].
  assert (idx < length (vectors st))%nat by (apply nth_error_Some; congruence).
  lia.
Qed.

(** X11: a call makes at most one pass of each scorer, [partial_ratio]
    only after [WRatio], and at most one similarity computation, after the
    scorers. *)
Theorem calls_of_a_call q n st :
  exists fuzzy ranking,
    calls (robust_recommend q n st) = (fuzzy ++ ranking)%list /\
    (fuzzy = [] \/ fuzzy = [ScoreWRatio] \/
     fuzzy = [ScoreWRatio; ScorePartialRatio]) /\
    (ranking = [] \/ exists idx, ranking = [Cosine idx]).
Proof.
  assert (Hf : calls (matched_title q st) = [] \/
               calls (matched_title q st) = [ScoreWRatio] \/
               calls (matched_title q st) = [ScoreWRatio; ScorePartialRatio]).
  { rewrite matched_title_run. cbv zeta.
    destruct (is_empty (normalize_text q)); [now left|].
    assert (Hr : calls (resolve (normalize_text q) st) = [] \/
                 calls (resolve (normalize_text q) st) = [ScoreWRatio] \/
                 calls (resolve (normalize_text q) st) =
                 [ScoreWRatio; ScorePartialRatio]).
    { rewrite resolve_run. destruct (string_in _ _); [now left|].
      rewrite smart_match_movie_run. cbv zeta.
      destruct (accepts _ 80); [cbn [calls]; auto|].
      destruct (accepts _ 85); cbn [calls]; auto. }
    destruct (value (resolve (normalize_text q) st)); exact Hr. }
  rewrite (robust_recommend_run V cosine). cbv zeta.
  exists (calls (matched_title q st)).
  destruct (value (matched_title q st)) as [[t|]|e]; cbn [calls].
  - destruct (first_label (rows (movies st) t)) as [idx|e]; cbn [calls].
    + exists (calls (rank idx n st)). split; [reflexivity|]. split; [exact Hf|].
      rewrite rank_run. destruct (getitem (vectors st) idx); cbn [calls];
        [right; now exists idx | now left].
    + exists []. rewrite app_nil_r. auto.
  - exists []. rewrite app_nil_r. auto.
  - exists []. rewrite app_nil_r. auto.
Qed.

(** X12: when something is recommended, the first recommendation is a row
    of highest similarity: no row of the vector set, the own row counted
    with zero, has a higher score. *)
Theorem first_recommendation_is_most_similar q n st r rest :
  value (robust_recommend q n st) = Ok (r :: rest) ->
  exists t idx x i,
    value (matched_title q st) = Ok (Some t) /\
    first_label (rows (movies st) t) = Ok idx /\
    getitem (vectors st) idx = Ok x /\
    let scores := own_zeroed cosine x (vectors st) idx in
    r = render (movies st) scores i /\
    forall j, (j < length (vectors st))%nat -> at_ scores j <= at_ scores i.
Proof.
  intros Hv.
  apply (robust_recommend_kept V cosine) in Hv
    as [[_ Hnil]|(t & idx & x & Hm & Hl & Hx & Hout & _)]; [discriminate|].
  cbv zeta in *.
  set (scores := own_zeroed cosine x (vectors st) idx) in *.
  destruct (accepted scores (threshold scores) n (top_indices scores) 0)
    as [|i kept] eqn:Ek; [discriminate|].
  cbn [map] in Hout. inversion Hout; subst.
  exists t, idx, x, i. repeat split; auto.
  intros j Hj.
  destruct (RankFacts.accepted_head scores (threshold scores) n
              (top_indices scores) 0 i kept
              (SortFacts.top_indices_sorted scores) Ek) as [tail Hpool].
  apply (RankFacts.top_indices_head_max scores i tail j Hpool).
  unfold scores. now rewrite (own_zeroed_length V cosine).
Qed.

(** X13: under a positive [top_n], a list shorter than [top_n] is complete:
    it holds every position of the pool whose score reaches the
    threshold. *)
Theorem short_list_is_complete q n st out t idx x :
  (0 < n)%Z ->
  value (matched_title q st) = Ok (Some t) ->
  first_label (rows (movies st) t) = Ok idx ->
  getitem (vectors st) idx = Ok x ->
  value (robust_recommend q n st) = Ok out ->
  (Z.of_nat (length out) < n)%Z ->
  let scores := own_zeroed cosine x (vectors st) idx in
  out = map (render (movies st) scores)
            (filter (fun i => Qle_bool (threshold scores) (at_ scores i))
                    (top_indices scores)).
Proof.
  intros Hn Hm Hl Hx Hv Hshort scores.
  rewrite (robust_recommend_value V cosine), Hm, Hl, Hx in Hv. cbv zeta in Hv.
  apply WalkFacts.walk_accepted in Hv. cbn [app length] in Hv.
  fold scores in Hv.
  rewrite accepted_positive_top_n in Hv by exact Hn.
  subst out. rewrite length_map, length_firstn in Hshort.
  rewrite firstn_all2 by lia. reflexivity.
Qed.

(** X14: for positive caps a <= b, the list returned under [top_n = a] is
    the first a entries of the list returned under [top_n = b]. *)
Theorem smaller_top_n_is_prefix q a b st outa outb :
  (0 < a <= b)%Z ->
  value (robust_recommend q a st) = Ok outa ->
  value (robust_recommend q b st) = Ok outb ->
  outa = firstn (Z.to_nat a) outb.
Proof.
  intros Hab Ha Hb.
  rewrite (robust_recommend_value V cosine) in Ha, Hb.
  destruct (value (matched_title q st)) as [[t|]|e]; [| |discriminate].
  - destruct (first_label (rows (movies st) t)) as [idx|e]; [|discriminate].
    destruct (getitem (vectors st) idx) as [x|e]; [|discriminate].
    cbv zeta in *.
    apply WalkFacts.walk_accepted in Ha, Hb. cbn [app length] in Ha, Hb.
    rewrite accepted_positive_top_n in Ha, Hb by lia.
    subst outa outb.
    rewrite firstn_map, firstn_firstn.
    replace (Nat.min (Z.to_nat a) (Z.to_nat b)) with (Z.to_nat a) by lia.
    reflexivity.
  - inversion Ha. inversion Hb. now rewrite firstn_nil.
Qed.

(** X16: when every clean title of the catalog holds a character that is
    neither a letter a-z nor a space, the exact-title test never succeeds:
    every query with a non-empty normalized text goes to the fuzzy
    resolver. *)
Theorem punctuated_titles_need_fuzzy q st :
  (forall t, In t (title_list st) -> all_chars plain t = false) ->
  resolve (normalize_text q) st = smart_match_movie (normalize_text q) st.
Proof.
  intros Hp. rewrite resolve_run.
  destruct (string_in (normalize_text q) (title_list st)) eqn:E; [|reflexivity].
  apply (string_in_iff WRatio partial_ratio) in E. apply Hp in E.
  rewrite TextFacts.normalize_text_plain in E. discriminate.
Qed.

(** X17: the case of the query does not matter: the lower-cased query gives
    the run that the query gives. *)
Theorem lowercase_query_same s n st :
  robust_recommend (PyStr (lower s)) n st = robust_recommend (PyStr s) n st.
Proof.
  assert (E : normalize_text (PyStr (lower s)) = normalize_text (PyStr s)).
  { unfold normalize_text. cbn [str]. now rewrite ShapeFacts.lower_idem. }
  unfold App.robust_recommend, App.matched_title. now rewrite E.
Qed.

End Orchestrator.

(* ------------------------------------------------------------------ *)
(** ** The genre list and the genre sample *)

Module GenreFacts.

Import Page.

(** Python's order on strings. *)
Local Abbreviation before a b := (String.compare a b = Lt).

Lemma before_trans a b c : before a b -> before b c -> before a c.
Proof.
  intros Hab Hbc.
  apply OrderedTypeEx.String_as_OT.cmp_lt.
  apply OrderedTypeEx.String_as_OT.lt_trans with (y := b);
    now apply OrderedTypeEx.String_as_OT.cmp_lt.
Qed.

Lemma after_before a b : String.compare a b = Gt -> before b a.
Proof.
  intros H. rewrite String.compare_antisym, H. reflexivity.
Qed.

Lemma insert_sorted_in g l x : In x (insert_sorted g l) <-> x = g \/ In x l.
Proof.
  induction l as [|h rest IH]; cbn [insert_sorted].
  - cbn. intuition.
  - destruct (String.compare g h) eqn:E.
    + apply String.compare_eq_iff in E. subst h. cbn. intuition.
    + cbn. intuition.
    + cbn [In]. rewrite IH. intuition.
Qed.

Lemma insert_sorted_sorted g l :
  StronglySorted (fun a b => before a b) l ->
  StronglySorted (fun a b => before a b) (insert_sorted g l).
Proof.
  induction l as [|h rest IH]; cbn [insert_sorted]; intros Hs.
  - constructor; constructor.
  - inversion Hs as [|? ? Hrest Hall]; subst.
    destruct (String.compare g h) eqn:E.
    + exact Hs.
    + constructor; [exact Hs|]. constructor; [exact E|].
      eapply Forall_impl; [|exact Hall].
      intros x Hx. exact (before_trans _ _ _ E Hx).
    + constructor; [now apply IH|].
      apply Forall_forall. intros x Hx.
      apply insert_sorted_in in Hx as [->|Hx].
      * now apply after_before.
      * rewrite Forall_forall in Hall. now apply Hall.
Qed.

Lemma sorted_set_in l x : In x (sorted_set l) <-> In x l.
Proof.
  unfold sorted_set. induction l as [|g l IH]; cbn [fold_right]; [tauto|].
  rewrite insert_sorted_in, IH. cbn. intuition.
Qed.

Lemma sorted_set_sorted l : StronglySorted (fun a b => before a b) (sorted_set l).
Proof.
  unfold sorted_set. induction l as [|g l IH]; cbn [fold_right];
    [constructor | now apply insert_sorted_sorted].
Qed.

Lemma index_from_in x l : forall k,
  In x l -> exists i, index_from k x l = Done i.
Proof.
  induction l as [|h rest IH]; intros k Hin; [destruct Hin|].
  cbn [index_from]. destruct (String.eqb_spec h x) as [E|NE].
  - now exists k.
  - destruct Hin as [E|Hin]; [contradiction | now apply IH].
Qed.

Lemma rows_at_in {A} (rows : list A) positions r :
  In r (rows_at rows positions) -> In r rows.
Proof.
  unfold rows_at. intros H. apply in_flat_map in H as (p & _ & Hr).
  destruct (nth_error rows p) as [r'|] eqn:E; [|destruct Hr].
  destruct Hr as [<-|[]]. eapply nth_error_In; exact E.
Qed.

Lemma rows_at_length {A} (rows : list A) positions :
  Forall (fun p => (p < length rows)%nat) positions ->
  length (rows_at rows positions) = length positions.
Proof.
  unfold rows_at. induction positions as [|p ps IH]; intros H; [reflexivity|].
  inversion H as [|? ? Hp Hps]; subst. cbn [flat_map length].
  rewrite length_app, (IH Hps).
  destruct (nth_error rows p) eqn:E; [reflexivity|].
  apply nth_error_None in E. lia.
Qed.

Lemma has_genre_in g e : has_genre g e = true <-> In g (e_genres e).
Proof.
  unfold has_genre. rewrite existsb_exists. split.
  - intros (x & Hx & E). apply String.eqb_eq in E. now subst.
  - intros H. exists g. split; [exact H | apply String.eqb_refl].
Qed.

End GenreFacts.

(* ------------------------------------------------------------------ *)
(** ** Properties of the genre list and the genre sample *)

Section Genres.

Import Page.

(** X18: the genre list starts with "All Genres"; after it come exactly the
    genres of the entries of the frame, in strictly ascending order, each
    once. *)
Theorem all_genres_listing (frame : list entry) :
  exists rest,
    all_genres frame = "All Genres"%string :: rest /\
    (forall g, In g rest <-> exists e, In e frame /\ In g (e_genres e)) /\
    StronglySorted (fun a b => String.compare a b = Lt) rest.
Proof.
  exists (sorted_set (flat_map e_genres frame)). split; [reflexivity|]. split.
  - intros g. rewrite GenreFacts.sorted_set_in, in_flat_map. reflexivity.
  - apply GenreFacts.sorted_set_sorted.
Qed.

(** X19: for a genre other than "All Genres" the sample never fails; every
    sampled entry is an entry of the frame that has the genre; when no
    entry has the genre the sample is empty. *)
Theorem genre_sample_of_a_genre choose selected (frame : list entry) :
  selected <> "All Genres"%string ->
  exists rows,
    genre_sample choose selected frame = Done rows /\
    Forall (fun e => In e frame /\ In selected (e_genres e)) rows /\
    ((forall e, In e frame -> ~ In selected (e_genres e)) -> rows = []).
Proof.
  intros Hsel. unfold genre_sample.
  destruct (String.eqb_spec selected "All Genres") as [E|_]; [contradiction|].
  cbv zeta. unfold sample.
  set (hits := filter (has_genre selected) frame).
  destruct (Nat.ltb_spec (length hits) (Nat.min 10 (length hits))) as [Hlt|_];
    [lia|].
  eexists. split; [reflexivity|]. split.
  - apply Forall_forall. intros e He.
    apply GenreFacts.rows_at_in in He. apply filter_In in He as [He Hg].
    split; [exact He | now apply GenreFacts.has_genre_in].
  - intros Hnone.
    assert (Hh : hits = []).
    { unfold hits. destruct (filter (has_genre selected) frame) as [|e l] eqn:Ef;
        [reflexivity|].
      assert (Hin : In e (filter (has_genre selected) frame))
        by (rewrite Ef; now left).
      apply filter_In in Hin as [He Hg]. apply GenreFacts.has_genre_in in Hg.
      exfalso. exact (Hnone e He Hg). }
    rewrite Hh. unfold rows_at.
    induction (choose _ _) as [|p ps IH]; [reflexivity|].
    cbn [flat_map]. rewrite IH. now destruct p.
Qed.

(** X20: with a draw that gives [n] positions inside the population, the
    sample of a genre other than "All Genres" has as many entries as the
    genre has, up to 10. *)
Theorem genre_sample_size choose selected (frame : list entry) rows :
  (forall n m, (n <= m)%nat ->
               length (choose n m) = n /\
               Forall (fun p => (p < m)%nat) (choose n m)) ->
  selected <> "All Genres"%string ->
  genre_sample choose selected frame = Done rows ->
  length rows = Nat.min 10 (length (filter (has_genre selected) frame)).
Proof.
  intros Hdraw Hsel. unfold genre_sample.
  destruct (String.eqb_spec selected "All Genres") as [E|_]; [contradiction|].
  cbv zeta. unfold sample.
  set (hits := filter (has_genre selected) frame).
  destruct (Nat.ltb_spec (length hits) (Nat.min 10 (length hits))) as [Hlt|_];
    [lia|].
  intros H. inversion H; subst rows.
  destruct (Hdraw (Nat.min 10 (length hits)) (length hits)) as [Hn Hp]; [lia|].
  rewrite GenreFacts.rows_at_length by exact Hp. exact Hn.
Qed.

End Genres.

(* ------------------------------------------------------------------ *)
(** ** Runs of the script *)

Module PageFacts.

Import Page PageShape.

Lemma grows_refl p : grows p p.
Proof. repeat split; auto. Qed.

Lemma grows_trans p1 p2 p3 : grows p1 p2 -> grows p2 p3 -> grows p1 p3.
Proof.
  intros (K1 & S1 & F1) (K2 & S2 & F2). repeat split; auto.
Qed.

Lemma andthen_grows {A B} (m : P A) (k : A -> P B) :
  (forall p, grows p (snd (m p))) ->
  (forall a p, grows p (snd (k a p))) ->
  forall p, grows p (snd (andthen m k p)).
Proof.
  intros Hm Hk p. unfold andthen. specialize (Hm p).
  destruct (m p) as [[a|e] p']; cbn [snd] in *; [|exact Hm].
  eapply grows_trans; [exact Hm | apply Hk].
Qed.

Lemma andthen_now {A B} (m : P A) (k : A -> P B) (Q : session -> Prop) :
  (forall p, Q (now p) -> Q (now (snd (m p)))) ->
  (forall a p, Q (now p) -> Q (now (snd (k a p)))) ->
  forall p, Q (now p) -> Q (now (snd (andthen m k p))).
Proof.
  intros Hm Hk p Hp. unfold andthen. specialize (Hm p Hp).
  destruct (m p) as [[a|e] p']; cbn [snd] in *; [|exact Hm].
  now apply Hk.
Qed.

Lemma kept_head c t v t' :
  kept ((t, v) :: c) t' = if String.eqb t t' then Some v else kept c t'.
Proof. reflexivity. Qed.

Section Script.

Variable V : Type.
Variable cosine : V -> V -> Q.
Variable WRatio partial_ratio : string -> string -> Q.
Variable api_key : string.
Variable requests_get : string -> response.
Variable choose : nat -> nat -> list nat.
Variable frame : list entry.
Variable vs : list V.

Local Abbreviation fetch_poster_body := (fetch_poster_body api_key requests_get).
Local Abbreviation fetch_poster := (fetch_poster api_key requests_get).
Local Abbreviation cards := (cards api_key requests_get).
Local Abbreviation recommend := (recommend V cosine WRatio partial_ratio frame vs).
Local Abbreviation search_block :=
  (search_block V cosine WRatio partial_ratio api_key requests_get frame vs).
Local Abbreviation genre_block := (genre_block api_key requests_get choose frame).
Local Abbreviation script :=
  (script V cosine WRatio partial_ratio api_key requests_get choose frame vs).

(** What the body returns is not "N/A". *)
Lemma fetch_poster_body_not_na t v :
  fetch_poster_body t = Done v -> v <> JString "N/A".
Proof.
  unfold Page.fetch_poster_body.
  destruct (requests_get (url api_key t)) as [|status body];
    [intros H; inversion H; discriminate|].
  destruct ((400 <=? status) && (status <? 600))%nat;
    [intros H; inversion H; discriminate|].
  destruct body as [[| | | | |fields]|]; try discriminate;
    try (intros H; inversion H; discriminate).
  cbv zeta. destruct (none_or_na (dict_get fields "Poster")) eqn:E;
    intros H; inversion H; subst; [discriminate|].
  intros Hna. rewrite Hna in E. discriminate.
Qed.

(** A lookup, by what is kept. *)
Lemma fetch_poster_run t p :
  fetch_poster t p =
  match kept (posters p) t with
  | Some v => (Done v, p)
  | None =>
      match fetch_poster_body t with
      | Done v => (Done v, {| now := now p; posters := (t, v) :: posters p;
                             shown := shown p |})
      | Fails e => (Fails e, p)
      end
  end.
Proof. reflexivity. Qed.

Lemma fetch_poster_now t p : now (snd (fetch_poster t p)) = now p.
Proof.
  rewrite fetch_poster_run. destruct (kept (posters p) t); [reflexivity|].
  destruct (fetch_poster_body t); reflexivity.
Qed.

Lemma fetch_poster_shown t p : shown (snd (fetch_poster t p)) = shown p.
Proof.
  rewrite fetch_poster_run. destruct (kept (posters p) t); [reflexivity|].
  destruct (fetch_poster_body t); reflexivity.
Qed.

(** A lookup that returns leaves its value kept. *)
Lemma fetch_poster_kept t p v :
  fst (fetch_poster t p) = Done v ->
  kept (posters (snd (fetch_poster t p))) t = Some v.
Proof.
  rewrite fetch_poster_run. destruct (kept (posters p) t) as [v0|] eqn:E.
  - cbn [fst snd]. intros H. inversion H; subst. exact E.
  - destruct (fetch_poster_body t) as [v0|e]; [|discriminate].
    cbn [fst snd posters]. intros H. inversion H; subst.
    now rewrite kept_head, String.eqb_refl.
Qed.

Lemma fetch_poster_keeps t p t' v :
  kept (posters p) t' = Some v ->
  kept (posters (snd (fetch_poster t p))) t' = Some v.
Proof.
  intros Hk. rewrite fetch_poster_run.
  destruct (kept (posters p) t) as [v0|] eqn:E; [exact Hk|].
  destruct (fetch_poster_body t) as [v0|e]; [|exact Hk].
  cbn [snd posters]. rewrite kept_head.
  destruct (String.eqb_spec t t') as [->|_]; [congruence | exact Hk].
Qed.

Lemma fetch_poster_sound t p :
  sound (posters p) -> sound (posters (snd (fetch_poster t p))).
Proof.
  intros Hs. rewrite fetch_poster_run.
  destruct (kept (posters p) t) as [v0|] eqn:E; [exact Hs|].
  destruct (fetch_poster_body t) as [v0|e] eqn:Eb; [|exact Hs].
  cbn [snd posters]. intros t' v. rewrite kept_head.
  destruct (String.eqb t t').
  - intros H. inversion H; subst. now apply fetch_poster_body_not_na with (t := t).
  - apply Hs.
Qed.

Lemma fetch_poster_value_not_na t p v :
  sound (posters p) -> fst (fetch_poster t p) = Done v -> v <> JString "N/A".
Proof.
  intros Hs Hv. apply fetch_poster_kept in Hv.
  exact (fetch_poster_sound t p Hs _ _ Hv).
Qed.

Lemma fetch_poster_grows t p : grows p (snd (fetch_poster t p)).
Proof.
  repeat split.
  - intros t' v. apply fetch_poster_keeps.
  - apply fetch_poster_sound.
  - intros _ H. now rewrite fetch_poster_shown.
Qed.

Lemma cards_now items : forall i p, now (snd (cards i items p)) = now p.
Proof.
  induction items as [|[t mark] rest IH]; intros i p; [reflexivity|].
  cbn [Page.cards]. unfold andthen.
  pose proof (fetch_poster_now t p) as Hf.
  destruct (fetch_poster t p) as [[poster|e] p1]; cbn [snd] in *; [|exact Hf].
  unfold when. destruct (truthy poster); cbn.
  - rewrite IH. cbn. exact Hf.
  - rewrite IH. exact Hf.
Qed.

Lemma cards_grows items : forall i p, grows p (snd (cards i items p)).
Proof.
  induction items as [|[t mark] rest IH]; intros i p; [apply grows_refl|].
  cbn [Page.cards]. unfold andthen.
  pose proof (fetch_poster_grows t p) as Hf.
  pose proof (fetch_poster_value_not_na t p) as Hna.
  destruct (fetch_poster t p) as [[poster|e] p1]; cbn [fst snd] in *; [|exact Hf].
  unfold when. destruct (truthy poster) eqn:Et; cbn [show pure].
  - eapply grows_trans; [|apply IH].
    destruct Hf as (K & S & F). repeat split; cbn [posters shown]; auto.
    intros Hs Hall. apply Forall_app. split; [now apply F|].
    constructor; [|constructor]. cbn. split; [exact Et | now apply (Hna poster)].
  - eapply grows_trans; [exact Hf | apply IH].
Qed.

Lemma recommend_same text p : snd (recommend text p) = p.
Proof.
  unfold Page.recommend. destruct (value _); reflexivity.
Qed.

Lemma search_block_now w p :
  now (snd (search_block w p)) =
  {| search_input := typed w; selected_genre := "All Genres" |}.
Proof.
  unfold Page.search_block, andthen, set_session.
  set (p1 := {| now := _; posters := posters p; shown := shown p |}).
  pose proof (recommend_same (typed w) p1) as Hr.
  destruct (recommend (typed w) p1) as [[recs|e] p2]; cbn [snd] in *; subst p2;
    [|reflexivity].
  destruct recs; [reflexivity | now rewrite cards_now].
Qed.

Lemma search_block_grows w p : grows p (snd (search_block w p)).
Proof.
  unfold Page.search_block, andthen, set_session.
  set (p1 := {| now := _; posters := posters p; shown := shown p |}).
  assert (H1 : grows p p1) by (repeat split; auto).
  pose proof (recommend_same (typed w) p1) as Hr.
  destruct (recommend (typed w) p1) as [[recs|e] p2]; cbn [snd] in *; subst p2;
    [|exact H1].
  eapply grows_trans; [exact H1|].
  destruct recs; [|apply cards_grows].
  repeat split; cbn [show snd posters shown]; auto.
  intros _ Hall. apply Forall_app. split; [exact Hall|].
  constructor; [exact I | constructor].
Qed.

Lemma genre_block_now w p :
  now (snd (genre_block w p)) =
  {| search_input := ""; selected_genre := chosen w |}.
Proof.
  unfold Page.genre_block, andthen, set_session, of_attempt.
  destruct (genre_sample choose (chosen w) frame); [|reflexivity].
  now rewrite cards_now.
Qed.

Lemma genre_block_grows w p : grows p (snd (genre_block w p)).
Proof.
  unfold Page.genre_block, andthen, set_session, of_attempt.
  set (p1 := {| now := _; posters := posters p; shown := shown p |}).
  assert (H1 : grows p p1) by (repeat split; auto).
  destruct (genre_sample choose (chosen w) frame); [|exact H1].
  eapply grows_trans; [exact H1 | apply cards_grows].
Qed.

(** The script as one case analysis. *)
Lemma script_run w p :
  script w p =
  match index_of (selected_genre (now p)) (all_genres frame) with
  | Fails e => (Fails e, p)
  | Done _ =>
      if reset_btn w
      then (Fails RerunException,
            {| now := {| search_input := ""; selected_genre := "All Genres" |};
               posters := posters p; shown := shown p |})
      else
        match (if search_btn w then search_block w p else (Done tt, p)) with
        | (Fails e, p1) => (Fails e, p1)
        | (Done _, p1) => if genre_btn w then genre_block w p1 else (Done tt, p1)
        end
  end.
Proof.
  unfold Page.script, andthen, get_session, of_attempt.
  destruct (index_of _ _); [|reflexivity].
  unfold when at 1. destruct (reset_btn w); [reflexivity|].
  cbn [pure]. unfold when at 1. destruct (search_btn w).
  - destruct (Page.search_block _ _ _ _ _ _ _ _ w p) as [[[]|e] p1];
      [|reflexivity].
    unfold when. destruct (genre_btn w); reflexivity.
  - cbn [pure]. unfold when. destruct (genre_btn w); reflexivity.
Qed.

(** The session a run leaves: untouched, reset, set by the search or set
    by the genre view. *)
Lemma script_now w p :
  now (snd (script w p)) = now p \/
  now (snd (script w p)) = {| search_input := ""; selected_genre := "All Genres" |} \/
  now (snd (script w p)) = {| search_input := typed w; selected_genre := "All Genres" |} \/
  now (snd (script w p)) = {| search_input := ""; selected_genre := chosen w |}.
Proof.
  rewrite script_run.
  destruct (index_of _ _); [|now left].
  destruct (reset_btn w); [right; left; reflexivity|].
  destruct (search_btn w).
  - pose proof (search_block_now w p) as Hs.
    destruct (search_block w p) as [[[]|e] p1]; cbn [snd] in *.
    + destruct (genre_btn w).
      * right; right; right. apply genre_block_now.
      * right; right; left. exact Hs.
    + right; right; left. exact Hs.
  - destruct (genre_btn w).
    + right; right; right. apply genre_block_now.
    + now left.
Qed.

Lemma script_grows w p : grows p (snd (script w p)).
Proof.
  rewrite script_run.
  destruct (index_of _ _); [|apply grows_refl].
  destruct (reset_btn w).
  - cbn. repeat split; auto.
  - destruct (search_btn w).
    + pose proof (search_block_grows w p) as Hs.
      destruct (search_block w p) as [[[]|e] p1]; cbn [snd] in *; [|exact Hs].
      destruct (genre_btn w); [|exact Hs].
      eapply grows_trans; [exact Hs | apply genre_block_grows].
    + destruct (genre_btn w); [apply genre_block_grows | apply grows_refl].
Qed.

End Script.

End PageFacts.

(* ------------------------------------------------------------------ *)
(** ** Properties of the page over its runs *)

Section Runs.

Import Page PageShape.

Variable V : Type.
Variable cosine : V -> V -> Q.
Variable WRatio partial_ratio : string -> string -> Q.
Variable api_key : string.
Variable frame : list entry.
Variable vs : list V.

Local Abbreviation run_script :=
  (run_script V cosine WRatio partial_ratio api_key).
Local Abbreviation page := (page V cosine WRatio partial_ratio api_key frame vs).
Local Abbreviation next := (next V cosine WRatio partial_ratio api_key frame vs).
Local Abbreviation after_runs :=
  (after_runs V cosine WRatio partial_ratio api_key frame vs).

Lemma defaults_stored s : defaults (stored s) = s.
Proof. now destruct s. Qed.

Lemma index_from_fails x l : forall k e, index_from k x l = Fails e -> e = ValueError.
Proof.
  induction l as [|h rest IH]; intros k e; cbn [index_from].
  - intros H. now inversion H.
  - destruct (String.eqb h x); [discriminate | apply IH].
Qed.

(** An invariant of the session that each run keeps holds after every
    sequence of runs. *)
Lemma session_invariant (Inv : session -> Prop) (ok : world -> Prop) :
  Inv (defaults no_keys) ->
  (forall x p, ok x -> Inv (now p) ->
               Inv (now (snd (script V cosine WRatio partial_ratio api_key
                                     (net x) (draw x) frame vs (input x) p)))) ->
  forall xs, Forall ok xs -> Inv (defaults (fst (after_runs xs))).
Proof.
  intros H0 Hstep xs Hok. unfold Page.after_runs.
  assert (G : forall kc, Inv (defaults (fst kc)) ->
                         Inv (defaults (fst (fold_left next xs kc)))).
  { induction Hok as [|x xs Hx Hxs IH]; intros kc Hkc; [exact Hkc|].
    cbn [fold_left]. apply IH. unfold Page.next. cbn [fst].
    rewrite defaults_stored. unfold Page.page, Page.run_script.
    now apply Hstep. }
  now apply G.
Qed.

(** The kept posters stay sound over the runs. *)
Lemma posters_stay_sound xs : sound (snd (after_runs xs)).
Proof.
  unfold Page.after_runs.
  assert (G : forall kc, sound (snd kc) -> sound (snd (fold_left next xs kc))).
  { induction xs as [|x xs IH]; intros kc Hkc; [exact Hkc|].
    cbn [fold_left]. apply IH. unfold Page.next. cbn [snd].
    unfold Page.page, Page.run_script.
    destruct (PageFacts.script_grows V cosine WRatio partial_ratio api_key
                (net x) (draw x) frame vs (input x)
                {| now := defaults (fst kc); posters := snd kc; shown := [] |})
      as (_ & Hs & _).
    now apply Hs. }
  apply G. intros t v H. discriminate.
Qed.

(** X21: "Recommend by Genre" with "All Genres" picked on a frame of fewer
    than ten rows ends the run with [ValueError]. *)
Theorem all_genres_needs_ten_rows requests_get choose w k c :
  genre_btn w = true -> search_btn w = false -> reset_btn w = false ->
  chosen w = "All Genres"%string ->
  (length frame < 10)%nat ->
  fst (run_script requests_get choose frame vs w k c) = Fails ValueError.
Proof.
  intros Hg Hs Hr Hc Hlen. unfold Page.run_script.
  rewrite PageFacts.script_run, Hg, Hs, Hr.
  destruct (index_of _ _) as [i|e] eqn:Ei.
  - unfold genre_block, andthen, set_session, of_attempt, genre_sample.
    rewrite Hc, String.eqb_refl. unfold sample.
    destruct (Nat.ltb_spec (length frame) 10) as [_|Hge]; [reflexivity | lia].
  - cbn [fst]. f_equal. eapply index_from_fails. exact Ei.
Qed.

(** X22: after every sequence of runs of a fresh session, the search text
    kept in the session is empty or the genre kept is "All Genres". *)
Theorem session_stays_steady xs : steady (defaults (fst (after_runs xs))).
Proof.
  apply (session_invariant steady (fun _ => True)).
  - now left.
  - intros x p _ Hp.
    destruct (PageFacts.script_now V cosine WRatio partial_ratio api_key
                (net x) (draw x) frame vs (input x) p) as [E|[E|[E|E]]];
      rewrite E; [exact Hp | now left | now right | now left].
  - apply Forall_forall. auto.
Qed.

(** X23: when every genre picked is one of the genre list, the genre kept
    in the session is in the genre list after every sequence of runs of a
    fresh session, so the lookup of its position on line 206 does not
    raise. *)
Theorem selected_genre_is_listed xs :
  Forall (fun x => In (chosen (input x)) (all_genres frame)) xs ->
  exists i,
    index_of (selected_genre (defaults (fst (after_runs xs)))) (all_genres frame) =
    Done i.
Proof.
  intros Hok. apply GenreFacts.index_from_in.
  apply (session_invariant (fun s => In (selected_genre s) (all_genres frame))
                           (fun x => In (chosen (input x)) (all_genres frame)));
    [now left | | exact Hok].
  intros x p Hx Hp.
  destruct (PageFacts.script_now V cosine WRatio partial_ratio api_key
              (net x) (draw x) frame vs (input x) p) as [E|[E|[E|E]]];
    rewrite E; cbn [selected_genre]; [exact Hp | now left | now left | exact Hx].
Qed.

(** X24: in every run, after any runs before it, every card on the page
    has a poster that counts as true and is not "N/A". *)
Theorem shown_cards_presentable xs x :
  Forall presentable (shown (page x (after_runs xs))).
Proof.
  unfold Page.page, Page.run_script.
  destruct (PageFacts.script_grows V cosine WRatio partial_ratio api_key
              (net x) (draw x) frame vs (input x)
              {| now := defaults (fst (after_runs xs));
                 posters := snd (after_runs xs); shown := [] |})
    as (_ & _ & Hf).
  apply Hf; [apply posters_stay_sound | constructor].
Qed.

(** X25: a lookup that returned is remembered: the next lookup of the same
    title returns the same value and changes nothing, whatever the network
    answers then. *)
Theorem lookup_is_remembered net1 net2 t p v :
  fst (fetch_poster api_key net1 t p) = Done v ->
  fetch_poster api_key net2 t (snd (fetch_poster api_key net1 t p)) =
  (Done v, snd (fetch_poster api_key net1 t p)).
Proof.
  intros H. apply PageFacts.fetch_poster_kept in H.
  rewrite (PageFacts.fetch_poster_run api_key net2). now rewrite H.
Qed.

(** X26: a kept poster, also the [None] kept after a failed request, stays
    kept over every later sequence of runs. *)
Theorem kept_poster_stays kc t v xs :
  kept (snd kc) t = Some v ->
  kept (snd (fold_left next xs kc)) t = Some v.
Proof.
  revert kc. induction xs as [|x xs IH]; intros kc Hk; [exact Hk|].
  cbn [fold_left]. apply IH. unfold Page.next. cbn [snd].
  unfold Page.page, Page.run_script.
  destruct (PageFacts.script_grows V cosine WRatio partial_ratio api_key
              (net x) (draw x) frame vs (input x)
              {| now := defaults (fst kc); posters := snd kc; shown := [] |})
    as (Hkeep & _).
  now apply Hkeep.
Qed.

End Runs.

(* ------------------------------------------------------------------ *)
(** ** What a search shows *)

Section Views.

Import Page PageShape.

Variable V : Type.
Variable cosine : V -> V -> Q.
Variable WRatio partial_ratio : string -> string -> Q.
Variable api_key : string.
Variable requests_get : string -> response.
Variable choose : nat -> nat -> list nat.
Variable frame : list entry.
Variable vs : list V.

Local Abbreviation fetch_poster := (fetch_poster api_key requests_get).
Local Abbreviation cards := (cards api_key requests_get).
Local Abbreviation run_script :=
  (run_script V cosine WRatio partial_ratio api_key requests_get choose frame vs).

(** Where the loop ends without raising, the cards it added are those of
    the items with a kept poster that counts as true, in order, each in the
    column of its position modulo 5. *)
Lemma cards_shown items : forall i p,
  fst (cards i items p) = Done tt ->
  shown (snd (cards i items p)) =
  (shown p ++ cards_of (posters (snd (cards i items p))) i items)%list.
Proof.
  induction items as [|[t mark] rest IH]; intros i p.
  - intros _. cbn. now rewrite app_nil_r.
  - cbn [Page.cards cards_of]. unfold andthen.
    pose proof (PageFacts.fetch_poster_kept api_key requests_get t p) as Hk.
    pose proof (PageFacts.fetch_poster_shown api_key requests_get t p) as Hs.
    destruct (fetch_poster t p) as [[poster|e] p1]; cbn [fst snd] in *;
      [|discriminate].
    specialize (Hk poster eq_refl).
    set (p2 := snd (when (truthy poster) (show (Card (i mod 5) t poster mark)) p1)).
    assert (E2 : when (truthy poster) (show (Card (i mod 5) t poster mark)) p1 =
                 (Done tt, p2)).
    { unfold p2, when. destruct (truthy poster); reflexivity. }
    rewrite E2. intros Hd.
    assert (Hp2 : posters p2 = posters p1)
      by (unfold p2, when; destruct (truthy poster); reflexivity).
    assert (Hkeep : kept (posters (snd (cards (S i) rest p2))) t = Some poster).
    { destruct (PageFacts.cards_grows api_key requests_get rest (S i) p2)
        as (Hg & _).
      apply Hg. now rewrite Hp2. }
    rewrite Hkeep, (IH (S i) p2 Hd), app_assoc. f_equal.
    unfold p2, when. destruct (truthy poster); cbn [snd show shown pure].
    + now rewrite Hs.
    + now rewrite Hs, app_nil_r.
Qed.

(** X27: a search for which [robust_recommend] returns the empty list shows
    the error box and nothing else; it keeps the text in the session, sets
    the genre to "All Genres" and asks for no poster. *)
Theorem empty_result_shows_error_box w k c i :
  index_of (selected_genre (defaults k)) (all_genres frame) = Done i ->
  reset_btn w = false -> search_btn w = true -> genre_btn w = false ->
  value (robust_recommend V cosine WRatio partial_ratio (PyStr (typed w)) 10
                          (loaded V frame vs)) = Ok [] ->
  run_script w k c =
  (Done tt,
   {| now := {| search_input := typed w; selected_genre := "All Genres" |};
      posters := c;
      shown := [ErrorBox "No strong recommendations found."] |}).
Proof.
  intros Hi Hr Hs Hg Hv. unfold Page.run_script.
  rewrite PageFacts.script_run. cbn [now]. rewrite Hi, Hr, Hs, Hg.
  unfold search_block, andthen, set_session, recommend. rewrite Hv.
  reflexivity.
Qed.

(** X28: a search with recommendations that ends without raising shows one
    card for each recommendation whose kept poster counts as true, in the
    order of the recommendations and in the column of its position modulo
    5, and no error box; the recommendations without such a poster leave
    their place empty. *)
Theorem search_shows_kept_posters w k c i recs :
  index_of (selected_genre (defaults k)) (all_genres frame) = Done i ->
  search_btn w = true -> genre_btn w = false ->
  value (robust_recommend V cosine WRatio partial_ratio (PyStr (typed w)) 10
                          (loaded V frame vs)) = Ok recs ->
  recs <> [] ->
  fst (run_script w k c) = Done tt ->
  shown (snd (run_script w k c)) =
  cards_of (posters (snd (run_script w k c))) 0
           (map (fun r => (fst r, Percent (snd r))) recs).
Proof.
  intros Hi Hs Hg Hv Hne. unfold Page.run_script.
  rewrite PageFacts.script_run. cbn [now]. rewrite Hi, Hs, Hg.
  destruct (reset_btn w); [discriminate|].
  unfold search_block, andthen, set_session, recommend. rewrite Hv.
  cbn [pure posters shown]. destruct recs as [|r recs]; [contradiction|].
  set (items := map (fun r => (fst r, Percent (snd r))) (r :: recs)).
  set (p1 := {| now := {| search_input := typed w; selected_genre := "All Genres" |};
                posters := c; shown := [] |}).
  destruct (cards 0 items p1) as [[[]|e] p2] eqn:Ec; cbn [fst snd];
    [|discriminate].
  intros _.
  pose proof (cards_shown items 0 p1) as H. rewrite Ec in H.
  exact (H eq_refl).
Qed.

End Views.

(* ------------------------------------------------------------------ *)
(** ** The further properties on the small catalog and the small page *)

Section OnDemoMore.

Import Page PageShape.

Local Open Scope Q_scope.
Local Open Scope string_scope.

Lemma demo_inception :
  value (Demo.recommend (PyStr "Inception") 10 Demo.catalog) =
  Ok [("Batman", 90); ("Heat", 85)].
Proof. vm_compute. reflexivity. Qed.

Lemma demo_matched :
  value (matched_title nat Demo.prefix_ratio Demo.no_ratio (PyStr "Inception")
                       Demo.catalog) = Ok (Some "inception").
Proof. vm_compute. reflexivity. Qed.

Lemma demo_located : first_label (rows (movies Demo.catalog) "inception") = Ok 0%nat.
Proof. reflexivity. Qed.

Lemma recommendations_bounded_witness :
  (length [("Batman", 90); ("Heat", 85)] <= 30)%nat /\
  (length [("Batman", 90); ("Heat", 85)] <= length (vectors Demo.catalog) - 1)%nat /\
  ((0 < 10)%Z -> (Z.of_nat (length [("Batman", 90); ("Heat", 85)]) <= 10)%Z).
Proof.
  exact (recommendations_bounded nat Demo.cosine Demo.prefix_ratio Demo.no_ratio
           (PyStr "Inception") 10 Demo.catalog _ demo_inception).
Defined.

Lemma recommended_scores_at_least_12_witness :
  Forall (fun r : string * Q => 12 <= snd r) [("Batman", 90); ("Heat", 85)].
Proof.
  exact (recommended_scores_at_least_12 nat Demo.cosine Demo.prefix_ratio
           Demo.no_ratio (PyStr "Inception") 10 Demo.catalog _ demo_inception).
Defined.

Lemma recommended_titles_from_catalog_witness :
  Forall (fun r : string * Q =>
            exists m, In m (movies Demo.catalog) /\ title m = fst r)
         [("Batman", 90); ("Heat", 85)].
Proof.
  exact (recommended_titles_from_catalog nat Demo.cosine Demo.prefix_ratio
           Demo.no_ratio (PyStr "Inception") 10 Demo.catalog _ demo_inception).
Defined.

Lemma demo_titles_differ : NoDup (map title (movies Demo.catalog)).
Proof.
  repeat constructor; cbn; intuition discriminate.
Qed.

Lemma distinct_titles_distinct_recommendations_witness :
  NoDup (map title (movies Demo.catalog)) /\
  positional (movies Demo.catalog) /\
  NoDup (map fst [("Batman", 90); ("Heat", 85)]) /\
  exists idx m,
    first_label (rows (movies Demo.catalog) "inception") = Ok idx /\
    nth_error (movies Demo.catalog) idx = Some m /\
    clean_title m = "inception" /\
    (forall j mj, (j < idx)%nat -> nth_error (movies Demo.catalog) j = Some mj ->
                  clean_title mj <> "inception") /\
    ~ In (title m) (map fst [("Batman", 90); ("Heat", 85)]).
Proof.
  assert (Hpos : positional (movies Demo.catalog))
    by apply LookupFacts.startup_positional.
  split; [exact demo_titles_differ|]. split; [exact Hpos|].
  destruct (distinct_titles_distinct_recommendations nat Demo.cosine
              Demo.prefix_ratio Demo.no_ratio (PyStr "Inception") 10 Demo.catalog _
              demo_titles_differ demo_inception) as [Hnd Hown].
  split; [exact Hnd|].
  exact (Hown Hpos "inception" demo_matched).
Defined.

Lemma single_entry_catalog_recommends_nothing_witness :
  (length (vectors (startup ["Inception"] [0%nat])) <= 1)%nat /\
  value (Demo.recommend (PyStr "Inception") 10 (startup ["Inception"] [0%nat])) =
  Ok [].
Proof.
  split; [cbn; lia|].
  assert (Hv : exists out,
             value (Demo.recommend (PyStr "Inception") 10
                                   (startup ["Inception"] [0%nat])) = Ok out)
    by (eexists; vm_compute; reflexivity).
  destruct Hv as [out Hv]. rewrite Hv. f_equal.
  refine (single_entry_catalog_recommends_nothing nat Demo.cosine Demo.prefix_ratio
            Demo.no_ratio (PyStr "Inception") 10 (startup ["Inception"] [0%nat])
            out _ Hv).
  cbn. lia.
Defined.

Lemma empty_catalog_recommends_nothing_witness :
  title_list (startup (V := nat) [] []) = [] /\
  value (Demo.recommend (PyStr "Inception") 10 (startup [] [])) = Ok [].
Proof.
  split; [reflexivity|].
  exact (empty_catalog_recommends_nothing nat Demo.cosine Demo.prefix_ratio
           Demo.no_ratio (PyStr "Inception") 10 (startup [] []) eq_refl).
Defined.

Lemma locate_first_occurrence_witness :
  value (locate nat "up" LabelDemo.doubled) = Ok 4%nat /\
  exists pos m,
    nth_error (movies LabelDemo.doubled) pos = Some m /\
    clean_title m = "up" /\ label m = 4%nat /\
    forall j mj, (j < pos)%nat ->
                 nth_error (movies LabelDemo.doubled) j = Some mj ->
                 clean_title mj <> "up".
Proof.
  split; [reflexivity|].
  exact (locate_first_occurrence nat "up" LabelDemo.doubled 4%nat eq_refl).
Defined.

Lemma short_vectors_raise_witness :
  first_label (rows (movies (startup (V := nat) ["Inception"; "Batman"] [0%nat]))
                    "batman") = Ok 1%nat /\
  value (Demo.recommend (PyStr "Batman") 10
                        (startup ["Inception"; "Batman"] [0%nat])) =
  Raise IndexError.
Proof.
  split; [reflexivity|].
  refine (short_vectors_raise nat Demo.cosine Demo.prefix_ratio Demo.no_ratio
            (PyStr "Batman") 10 (startup ["Inception"; "Batman"] [0%nat])
            "batman" 1%nat _ eq_refl _).
  - vm_compute. reflexivity.
  - cbn. lia.
Defined.

Lemma first_recommendation_is_most_similar_witness :
  exists t idx x i,
    value (matched_title nat Demo.prefix_ratio Demo.no_ratio (PyStr "Inception")
                         Demo.catalog) = Ok (Some t) /\
    first_label (rows (movies Demo.catalog) t) = Ok idx /\
    getitem (vectors Demo.catalog) idx = Ok x /\
    let scores := own_zeroed Demo.cosine x (vectors Demo.catalog) idx in
    ("Batman", 90) = render (movies Demo.catalog) scores i /\
    forall j, (j < length (vectors Demo.catalog))%nat -> at_ scores j <= at_ scores i.
Proof.
  exact (first_recommendation_is_most_similar nat Demo.cosine Demo.prefix_ratio
           Demo.no_ratio (PyStr "Inception") 10 Demo.catalog _ _ demo_inception).
Defined.

Lemma short_list_is_complete_witness :
  (Z.of_nat (length [("Batman", 90); ("Heat", 85)]) < 10)%Z /\
  let scores := own_zeroed Demo.cosine 0%nat (vectors Demo.catalog) 0 in
  [("Batman", 90); ("Heat", 85)] =
  map (render (movies Demo.catalog) scores)
      (filter (fun i => Qle_bool (threshold scores) (at_ scores i))
              (top_indices scores)).
Proof.
  assert (Hlt : (Z.of_nat (length [("Batman", 90); ("Heat", 85)]) < 10)%Z)
    by (cbn; lia).
  split; [exact Hlt|].
  refine (short_list_is_complete nat Demo.cosine Demo.prefix_ratio Demo.no_ratio
            (PyStr "Inception") 10 Demo.catalog _ "inception" 0%nat 0%nat
            _ demo_matched demo_located eq_refl demo_inception Hlt).
  lia.
Defined.

Lemma demo_inception_one :
  value (Demo.recommend (PyStr "Inception") 1 Demo.catalog) = Ok [("Batman", 90)].
Proof. vm_compute. reflexivity. Qed.

Lemma smaller_top_n_is_prefix_witness :
  (0 < 1 <= 10)%Z /\
  [("Batman", 90)] = firstn (Z.to_nat 1) [("Batman", 90); ("Heat", 85)].
Proof.
  assert (Hab : (0 < 1 <= 10)%Z) by lia.
  split; [exact Hab|].
  exact (smaller_top_n_is_prefix nat Demo.cosine Demo.prefix_ratio Demo.no_ratio
           (PyStr "Inception") 1 10 Demo.catalog _ _ Hab
           demo_inception_one demo_inception).
Defined.

Lemma robust_recommend_returns_witness :
  map fst LabelDemo.default_frame = seq 0 (length LabelDemo.default_frame) /\
  length [0; 1; 2]%nat = length LabelDemo.default_frame /\
  exists out,
    value (robust_recommend nat Demo.cosine Demo.prefix_ratio Demo.no_ratio
             (PyStr "inceptio") 10
             (load LabelDemo.default_frame [0; 1; 2]%nat)) = Ok out.
Proof.
  split; [reflexivity|]. split; [reflexivity|].
  exact (robust_recommend_returns nat Demo.cosine Demo.prefix_ratio Demo.no_ratio
           LabelDemo.default_frame [0; 1; 2]%nat (PyStr "inceptio") 10
           eq_refl eq_refl).
Defined.

Lemma punctuated_titles_need_fuzzy_witness :
  (forall t, In t (title_list (startup (V := nat) ["Se7en"; "Spider-Man 2"] [0; 1]%nat)) ->
             all_chars plain t = false) /\
  resolve nat Demo.prefix_ratio Demo.no_ratio (normalize_text (PyStr "Se7en"))
          (startup ["Se7en"; "Spider-Man 2"] [0; 1]%nat) =
  smart_match_movie nat Demo.prefix_ratio Demo.no_ratio (normalize_text (PyStr "Se7en"))
                    (startup ["Se7en"; "Spider-Man 2"] [0; 1]%nat).
Proof.
  assert (Hp : forall t,
             In t (title_list (startup (V := nat) ["Se7en"; "Spider-Man 2"] [0; 1]%nat)) ->
             all_chars plain t = false).
  { intros t [<-|[<-|[]]]; reflexivity. }
  split; [exact Hp|].
  exact (punctuated_titles_need_fuzzy nat Demo.prefix_ratio Demo.no_ratio
           (PyStr "Se7en") (startup ["Se7en"; "Spider-Man 2"] [0; 1]%nat) Hp).
Defined.

End OnDemoMore.

Section OnPageDemo.

Import Page PageShape.

Local Open Scope Q_scope.
Local Open Scope string_scope.

Lemma genre_sample_of_a_genre_witness :
  "Crime" <> "All Genres" /\
  exists rows,
    genre_sample PageDemo.first_rows "Crime" PageDemo.frame = Done rows /\
    Forall (fun e => In e PageDemo.frame /\ In "Crime" (e_genres e)) rows /\
    ((forall e, In e PageDemo.frame -> ~ In "Crime" (e_genres e)) -> rows = []).
Proof.
  assert (Hne : "Crime" <> "All Genres") by discriminate.
  split; [exact Hne|].
  exact (genre_sample_of_a_genre PageDemo.first_rows "Crime" PageDemo.frame Hne).
Defined.

Lemma first_rows_draw n m :
  (n <= m)%nat ->
  length (PageDemo.first_rows n m) = n /\
  Forall (fun p => (p < m)%nat) (PageDemo.first_rows n m).
Proof.
  intros H. unfold PageDemo.first_rows. split; [apply length_seq|].
  apply Forall_forall. intros p Hp. apply in_seq in Hp. lia.
Qed.

Lemma genre_sample_size_witness :
  genre_sample PageDemo.first_rows "Action" PageDemo.frame = Done PageDemo.frame /\
  length PageDemo.frame =
  Nat.min 10 (length (filter (has_genre "Action") PageDemo.frame)).
Proof.
  assert (Hs : genre_sample PageDemo.first_rows "Action" PageDemo.frame =
               Done PageDemo.frame) by reflexivity.
  split; [exact Hs|].
  refine (genre_sample_size PageDemo.first_rows "Action" PageDemo.frame _
            first_rows_draw _ Hs).
  discriminate.
Defined.

Lemma all_genres_needs_ten_rows_witness :
  (length PageDemo.frame < 10)%nat /\
  fst (PageDemo.run PageDemo.online (PageDemo.browse "All Genres") no_keys []) =
  Fails ValueError.
Proof.
  assert (Hlen : (length PageDemo.frame < 10)%nat) by (cbn; lia).
  split; [exact Hlen|].
  exact (all_genres_needs_ten_rows nat Demo.cosine Demo.prefix_ratio Demo.no_ratio
           PageDemo.key PageDemo.frame PageDemo.vs PageDemo.online
           PageDemo.first_rows (PageDemo.browse "All Genres") no_keys []
           eq_refl eq_refl eq_refl eq_refl Hlen).
Defined.

Lemma demo_visits_listed :
  Forall (fun x => In (chosen (input x)) (all_genres PageDemo.frame))
         [PageDemo.visit PageDemo.online (PageDemo.browse "Crime");
          PageDemo.visit PageDemo.offline (PageDemo.search_for "Inception")].
Proof.
  repeat constructor; vm_compute; tauto.
Qed.

Lemma selected_genre_is_listed_witness :
  exists i,
    index_of (selected_genre
                (defaults (fst (PageDemo.session_after
                                  [PageDemo.visit PageDemo.online (PageDemo.browse "Crime");
                                   PageDemo.visit PageDemo.offline
                                                  (PageDemo.search_for "Inception")]))))
             (all_genres PageDemo.frame) = Done i.
Proof.
  exact (selected_genre_is_listed nat Demo.cosine Demo.prefix_ratio Demo.no_ratio
           PageDemo.key PageDemo.frame PageDemo.vs _ demo_visits_listed).
Defined.

Lemma lookup_is_remembered_witness :
  fst (fetch_poster PageDemo.key PageDemo.offline "Batman"
                    {| now := defaults no_keys; posters := []; shown := [] |}) =
  Done JNull /\
  fst (fetch_poster PageDemo.key PageDemo.online "Batman"
         (snd (fetch_poster PageDemo.key PageDemo.offline "Batman"
                 {| now := defaults no_keys; posters := []; shown := [] |}))) =
  Done JNull.
Proof.
  split; [reflexivity|].
  rewrite (lookup_is_remembered PageDemo.key PageDemo.offline PageDemo.online
             "Batman" {| now := defaults no_keys; posters := []; shown := [] |}
             JNull eq_refl).
  reflexivity.
Defined.

Lemma kept_poster_stays_witness :
  kept (snd (PageDemo.session_after
               [PageDemo.visit PageDemo.offline (PageDemo.search_for "Inception")]))
       "Batman" = Some JNull /\
  kept (snd (PageDemo.session_after
               [PageDemo.visit PageDemo.offline (PageDemo.search_for "Inception");
                PageDemo.visit PageDemo.online (PageDemo.search_for "Inception")]))
       "Batman" = Some JNull.
Proof.
  assert (Hk : kept (snd (PageDemo.session_after
                            [PageDemo.visit PageDemo.offline
                                            (PageDemo.search_for "Inception")]))
                    "Batman" = Some JNull) by (vm_compute; reflexivity).
  split; [exact Hk|].
  exact (kept_poster_stays nat Demo.cosine Demo.prefix_ratio Demo.no_ratio
           PageDemo.key PageDemo.frame PageDemo.vs
           (PageDemo.session_after
              [PageDemo.visit PageDemo.offline (PageDemo.search_for "Inception")])
           "Batman" JNull
           [PageDemo.visit PageDemo.online (PageDemo.search_for "Inception")] Hk).
Defined.

Lemma demo_blank_search :
  value (robust_recommend nat Demo.cosine Demo.prefix_ratio Demo.no_ratio
           (PyStr (typed (PageDemo.search_for "!!!"))) 10
           (loaded nat PageDemo.frame PageDemo.vs)) = Ok [].
Proof. vm_compute. reflexivity. Qed.

Lemma empty_result_shows_error_box_witness :
  PageDemo.run PageDemo.online (PageDemo.search_for "!!!") no_keys [] =
  (Done tt,
   {| now := {| search_input := "!!!"; selected_genre := "All Genres" |};
      posters := [];
      shown := [ErrorBox "No strong recommendations found."] |}).
Proof.
  exact (empty_result_shows_error_box nat Demo.cosine Demo.prefix_ratio Demo.no_ratio
           PageDemo.key PageDemo.online PageDemo.first_rows PageDemo.frame PageDemo.vs
           (PageDemo.search_for "!!!") no_keys [] 0%nat
           eq_refl eq_refl eq_refl eq_refl demo_blank_search).
Defined.

Lemma demo_search :
  value (robust_recommend nat Demo.cosine Demo.prefix_ratio Demo.no_ratio
           (PyStr (typed (PageDemo.search_for "Inception"))) 10
           (loaded nat PageDemo.frame PageDemo.vs)) =
  Ok [("Batman", 90); ("Heat", 85)].
Proof. vm_compute. reflexivity. Qed.

Lemma demo_search_ends :
  fst (PageDemo.run PageDemo.online (PageDemo.search_for "Inception") no_keys []) =
  Done tt.
Proof. vm_compute. reflexivity. Qed.

Lemma search_shows_kept_posters_witness :
  shown (snd (PageDemo.run PageDemo.online (PageDemo.search_for "Inception")
                           no_keys [])) =
  cards_of (posters (snd (PageDemo.run PageDemo.online
                                       (PageDemo.search_for "Inception") no_keys [])))
           0 [("Batman", Percent 90); ("Heat", Percent 85)].
Proof.
  refine (search_shows_kept_posters nat Demo.cosine Demo.prefix_ratio Demo.no_ratio
            PageDemo.key PageDemo.online PageDemo.first_rows PageDemo.frame
            PageDemo.vs (PageDemo.search_for "Inception") no_keys [] 0%nat
            [("Batman", 90); ("Heat", 85)]
            eq_refl eq_refl eq_refl demo_search _ demo_search_ends).
  discriminate.
Defined.

(** The search for "Inception" on the small page: one card, for "Batman";
    "Heat", whose poster is "N/A", leaves the second column empty. *)
Example demo_search_page :
  shown (snd (PageDemo.run PageDemo.online (PageDemo.search_for "Inception")
                           no_keys [])) =
  [Card 0 "Batman" (JString "http://img/batman.jpg") (Percent 90)].
Proof. vm_compute. reflexivity. Qed.

End OnPageDemo.

(* ------------------------------------------------------------------ *)
(** ** Frames whose index labels are positions *)

Section DefaultIndex.

Local Open Scope Q_scope.

Variable V : Type.
Variable cosine : V -> V -> Q.
Variable WRatio partial_ratio : string -> string -> Q.

(** On a frame whose index labels are the positions of its rows the label
    the lookup returns is the position of the resolved row, and that row is
    not among the accepted ones. *)
Lemma own_row_never_recommended q n (st : store V) t out :
  positional (movies st) ->
  value (matched_title V WRatio partial_ratio q st) = Ok (Some t) ->
  value (robust_recommend V cosine WRatio partial_ratio q n st) = Ok out ->
  exists idx m x,
    first_label (rows (movies st) t) = Ok idx /\
    nth_error (movies st) idx = Some m /\ clean_title m = t /\ label m = idx /\
    getitem (vectors st) idx = Ok x /\
    let scores := own_zeroed cosine x (vectors st) idx in
    let kept := accepted scores (threshold scores) n (top_indices scores) 0 in
    out = map (render (movies st) scores) kept /\ ~ In idx kept.
Proof.
  intros Hpos Hm Hv.
  apply (robust_recommend_kept V cosine) in Hv
    as [[Hnone _]|(t' & idx & x & Hm' & Hl & Hx & Hout & _ & _ & Hni)].
  - rewrite Hm in Hnone. discriminate.
  - rewrite Hm in Hm'. inversion Hm'; subst t'.
    destruct (LookupFacts.first_label_row _ _ _ Hl) as (pos & m & Hn & Hc & Hlab & _).
    assert (pos = idx) by (rewrite <- Hlab; symmetry; exact (Hpos pos m Hn)).
    subst pos. exists idx, m, x. repeat split; auto.
Qed.

End DefaultIndex.
